(** * ODST: the dense block of oblivious differentiable sparsemax trees

    A shallow embedding of [pytorch_tabular/models/node/odst.py] and the
    properties of its constructor, forward pass and data-aware initializer.

    Layout of the development:
    - [fval]: tensor elements.  A float is read as an exact real number, plus
      the three special values the layer can meet (the not-a-number sentinel
      of the constructor, and the infinities of [torch.log]).  Rounding,
      overflow and the sign of zero are not represented: a statement about
      a computed value is a statement about the exact computation.
    - [tensor]: a shape and a contiguous row-major storage; strides are not
      represented.
    - [world]: the mutable state a call can touch: the heap of tensor
      objects, numpy's global random stream, and the warnings issued.
    - [ODST], [__init__], [forward], [initialize], [__repr__]: the layer;
      its tensor attributes are heap locations.
    - [layer_ok], [Reference], [example_layer]: the invariant of a
      constructed layer, the forward pass in the words of the
      specification, and a small layer to run the statements on.
    - Lemmas on tensors, on the runs of [forward] and [initialize], and the
      properties of the layer.  *)

From Stdlib Require Import Reals Lra Lia ZArith Sorted.
From stdpp Require Import base decidable option list strings.

(* ===================================================================== *)
(** ** Scalars *)
(* ===================================================================== *)

#[global] Instance Rlt_decision : RelDecision Rlt := Rlt_dec.
#[global] Instance Rle_decision : RelDecision Rle := Rle_dec.
#[global] Instance Req_decision : EqDecision R := Req_dec_T.

(** [Inf true] is minus infinity, [Inf false] is plus infinity. *)
Inductive fval : Type :=
  | NaN
  | Inf (negative : bool)
  | Fin (r : R).

#[global] Instance fval_inhabited : Inhabited fval := populate NaN.

Definition is_nan (v : fval) : bool :=
  match v with NaN => true | _ => false end.

Definition finite (v : fval) : Prop := ∃ r, v = Fin r.

(** The real number a finite value stands for (0 on special values; only
    used on finite values). *)
Definition rval (v : fval) : R :=
  match v with Fin r => r | _ => 0%R end.

Definition fneg (a : fval) : fval :=
  match a with
  | NaN => NaN
  | Inf s => Inf (negb s)
  | Fin r => Fin (- r)
  end.

Definition fadd (a b : fval) : fval :=
  match a, b with
  | NaN, _ | _, NaN => NaN
  | Inf s, Inf s' => if Bool.eqb s s' then Inf s else NaN
  | Inf s, Fin _ | Fin _, Inf s => Inf s
  | Fin x, Fin y => Fin (x + y)
  end.

Definition fsub (a b : fval) : fval := fadd a (fneg b).

(** Sign of the product of an infinity of sign [s] with the real [r]. *)
Definition inf_times (s : bool) (r : R) : fval :=
  if decide (r = 0%R) then NaN
  else Inf (xorb s (bool_decide (r < 0)%R)).

Definition fmul (a b : fval) : fval :=
  match a, b with
  | NaN, _ | _, NaN => NaN
  | Inf s, Inf s' => Inf (xorb s s')
  | Inf s, Fin r | Fin r, Inf s => inf_times s r
  | Fin x, Fin y => Fin (x * y)
  end.

(** Division; a zero divisor is read as [+0.0]. *)
Definition fdiv (a b : fval) : fval :=
  match a, b with
  | NaN, _ | _, NaN => NaN
  | Inf _, Inf _ => NaN
  | Inf s, Fin r => Inf (xorb s (bool_decide (r < 0)%R))
  | Fin _, Inf _ => Fin 0
  | Fin x, Fin y =>
      if decide (y = 0%R) then
        (if decide (x = 0%R) then NaN else Inf (bool_decide (x < 0)%R))
      else Fin (x / y)
  end.

Definition fabs (a : fval) : fval :=
  match a with
  | NaN => NaN
  | Inf _ => Inf false
  | Fin r => Fin (Rabs r)
  end.

(** [torch.exp], without the overflow of a 32-bit float *)
Definition fexp (a : fval) : fval :=
  match a with
  | NaN => NaN
  | Inf true => Fin 0
  | Inf false => Inf false
  | Fin r => Fin (exp r)
  end.

(** [torch.log]: minus infinity at zero, not-a-number below. *)
Definition flog (a : fval) : fval :=
  match a with
  | NaN => NaN
  | Inf true => NaN
  | Inf false => Inf false
  | Fin r =>
      if decide (0 < r)%R then Fin (ln r)
      else if decide (r = 0%R) then Inf true
      else NaN
  end.

(** The order used to sort values that are not NaN. *)
Definition fle (a b : fval) : bool :=
  match a, b with
  | Inf true, _ => true
  | _, Inf false => true
  | Fin x, Fin y => bool_decide (x <= y)%R
  | _, _ => false
  end.

Definition fsum (l : list fval) : fval := foldr fadd (Fin 0) l.
Definition fprod (l : list fval) : fval := foldr fmul (Fin 1) l.

Definition Rsum (l : list R) : R := foldr Rplus 0%R l.
Definition Rprod (l : list R) : R := foldr Rmult 1%R l.

(* ===================================================================== *)
(** ** Exceptions *)
(* ===================================================================== *)

Inductive exn : Type :=
  | AssertionError
  | IndexError
  | RuntimeError
  | ValueError.

Inductive result (A : Type) : Type :=
  | Ok (a : A)
  | Raise (e : exn).
Arguments Ok {A} a.
Arguments Raise {A} e.

#[global] Instance result_ret : MRet result := λ A a, Ok a.
#[global] Instance result_bind : MBind result := λ A B f m,
  match m with Ok a => f a | Raise e => Raise e end.
#[global] Instance result_fmap : FMap result := λ A B f m,
  match m with Ok a => Ok (f a) | Raise e => Raise e end.

(** [mapM] for [result]: the first exception aborts the traversal. *)
Fixpoint sequence {A} (l : list (result A)) : result (list A) :=
  match l with
  | [] => Ok []
  | m :: l' => a ← m; r ← sequence l'; Ok (a :: r)
  end.

(* ===================================================================== *)
(** ** Tensors *)
(* ===================================================================== *)

Record tensor : Type := Tensor { shape : list nat; data : list fval }.

#[global] Instance tensor_inhabited : Inhabited tensor := populate (Tensor [] []).

Definition numel (sh : list nat) : nat := foldr Nat.mul 1 sh.
Definition ndim (t : tensor) : nat := length (shape t).

(** Storage and shape agree. *)
Definition wf_tensor (t : tensor) : Prop := length (data t) = numel (shape t).

Definition all_finite (t : tensor) : Prop := Forall finite (data t).

(** Row-major offset of a multi-index. *)
Fixpoint offset (sh idx : list nat) : nat :=
  match sh, idx with
  | _ :: sh', i :: idx' => i * numel sh' + offset sh' idx'
  | _, _ => 0
  end.

Definition get (t : tensor) (idx : list nat) : fval :=
  data t !!! offset (shape t) idx.

(** All multi-indices of a shape, in storage order. *)
Fixpoint indices (sh : list nat) : list (list nat) :=
  match sh with
  | [] => [[]]
  | n :: sh' => i ← seq 0 n; cons i <$> indices sh'
  end.

(** The tensor of shape [sh] whose element at [idx] is [f idx]. *)
Definition build (sh : list nat) (f : list nat → fval) : tensor :=
  Tensor sh (f <$> indices sh).

Definition in_bounds (sh idx : list nat) : Prop :=
  Forall2 (λ n i, i < n) sh idx.

Definition tmap (f : fval → fval) (t : tensor) : tensor :=
  Tensor (shape t) (f <$> data t).


(* ===================================================================== *)
(** ** The torch operations the layer uses *)
(* ===================================================================== *)

(** Of the three einsums only the first meets an operand the caller
    chooses (the input), and it broadcasts as torch does.  In the other two,
    shape combinations that a layer built by the constructor never produces
    (operands that torch would broadcast along size-1 axes, or reject)
    raise [RuntimeError] here. *)

(** [torch.zeros(size)], [torch.full(size, v)] *)
Definition torch_full (size : list nat) (v : fval) : tensor :=
  Tensor size (replicate (numel size) v).
Definition torch_zeros (size : list nat) : tensor := torch_full size (Fin 0).

(** [torch.as_tensor(l)] of a flat Python list. *)
Definition torch_as_tensor (l : list fval) : tensor := Tensor [length l] l.

(** [t.view(dims)]: the same storage under a new shape; one entry of
    [dims] may be [-1] and is then inferred.  Every tensor here is
    contiguous: torch's [view] also raises on a tensor whose strides do not
    fit the new shape (such as a permuted result of [einsum]), which this
    definition does not show. *)
Definition view (t : tensor) (dims : list Z) : result tensor :=
  let n := numel (shape t) in
  let newsize := Z.to_nat (foldr Z.mul 1%Z (filter (λ d, d ≠ (-1)%Z) dims)) in
  if bool_decide (Exists (λ d, (d < -1)%Z) dims) then Raise RuntimeError
  else match length (filter (λ d, d = (-1)%Z) dims) with
       | 0 =>
           if decide (n = newsize)
           then Ok (Tensor (Z.to_nat <$> dims) (data t))
           else Raise RuntimeError
       | 1 =>
           if decide (newsize ≠ 0 ∧ n `mod` newsize = 0)
           then Ok (Tensor ((λ d, if decide (d = (-1)%Z) then n `div` newsize
                                  else Z.to_nat d) <$> dims) (data t))
           else Raise RuntimeError
       | _ => Raise RuntimeError
       end.

(** [t.flatten(1, 2)] *)
Definition flatten_1_2 (t : tensor) : result tensor :=
  match shape t with
  | a :: b :: c :: rest => Ok (Tensor (a :: b * c :: rest) (data t))
  | _ => Raise IndexError
  end.

(** [t.flatten()] of a numpy array, as a flat list. *)
Definition flatten (t : tensor) : list fval := data t.

(** [t.t()]: the transpose of a 2-d tensor; a tensor of fewer dimensions
    is returned as it is. *)
Definition transpose (t : tensor) : result tensor :=
  match shape t with
  | [] | [_] => Ok t
  | [n; m] =>
      Ok (build [m; n] (λ idx, match idx with
                               | [j; i] => get t [i; j]
                               | _ => NaN
                               end))
  | _ => Raise RuntimeError
  end.

(** Iterating a 2-d array yields its rows. *)
Definition rows (t : tensor) : list (list fval) :=
  match shape t with
  | [n; m] => (λ i, (λ j, get t [i; j]) <$> seq 0 m) <$> seq 0 n
  | _ => []
  end.

(** [a op b] where the shape of [b] is a suffix of the shape of [a]. *)
Definition broadcast (op : fval → fval → fval) (a b : tensor) : result tensor :=
  let k := ndim a - ndim b in
  if decide (drop k (shape a) = shape b)
  then Ok (build (shape a) (λ idx, op (get a idx) (get b (drop k idx))))
  else Raise RuntimeError.

(** [torch.stack([a, b], dim=-1)] *)
Definition stack_last (a b : tensor) : result tensor :=
  if decide (shape a = shape b)
  then Ok (build (shape a ++ [2]) (λ idx,
             match last idx with
             | Some 0 => get a (removelast idx)
             | Some _ => get b (removelast idx)
             | None => NaN
             end))
  else Raise RuntimeError.

(** [torch.einsum("bi,ind->bnd", x, s)].  When the two sizes of [i] differ
    and one of them is 1, einsum broadcasts: the other operand is summed
    over [i] first and the two are multiplied.  Sizes that differ and are
    both other than 1 are rejected. *)
Definition einsum_bi_ind_bnd (x s : tensor) : result tensor :=
  match shape x, shape s with
  | [B; F], [F'; N; D] =>
      if decide (F = F')
      then Ok (build [B; N; D] (λ idx,
                 match idx with
                 | [b; n; d] =>
                     fsum ((λ i, fmul (get x [b; i]) (get s [i; n; d])) <$> seq 0 F)
                 | _ => NaN
                 end))
      else if decide (F = 1)
      then Ok (build [B; N; D] (λ idx,
                 match idx with
                 | [b; n; d] =>
                     fmul (get x [b; 0])
                          (fsum ((λ i, get s [i; n; d]) <$> seq 0 F'))
                 | _ => NaN
                 end))
      else if decide (F' = 1)
      then Ok (build [B; N; D] (λ idx,
                 match idx with
                 | [b; n; d] =>
                     fmul (fsum ((λ i, get x [b; i]) <$> seq 0 F))
                          (get s [0; n; d])
                 | _ => NaN
                 end))
      else Raise RuntimeError
  | _, _ => Raise RuntimeError
  end.

(** [torch.einsum("btds,dcs->btdc", x, y)] *)
Definition einsum_btds_dcs_btdc (x y : tensor) : result tensor :=
  match shape x, shape y with
  | [B; T; D; P], [D'; C; P'] =>
      if decide (D = D' ∧ P = P')
      then Ok (build [B; T; D; C] (λ idx,
                 match idx with
                 | [b; t; d; c] =>
                     fsum ((λ s, fmul (get x [b; t; d; s]) (get y [d; c; s])) <$> seq 0 P)
                 | _ => NaN
                 end))
      else Raise RuntimeError
  | _, _ => Raise RuntimeError
  end.

(** [torch.einsum("bnd,ncd->bnc", x, y)] *)
Definition einsum_bnd_ncd_bnc (x y : tensor) : result tensor :=
  match shape x, shape y with
  | [B; N; D], [N'; C; D'] =>
      if decide (N = N' ∧ D = D')
      then Ok (build [B; N; C] (λ idx,
                 match idx with
                 | [b; n; c] =>
                     fsum ((λ d, fmul (get x [b; n; d]) (get y [n; c; d])) <$> seq 0 D)
                 | _ => NaN
                 end))
      else Raise RuntimeError
  | _, _ => Raise RuntimeError
  end.

(** [torch.prod(x, dim=-2)] of a 4-d tensor. *)
Definition prod_dim_m2 (x : tensor) : result tensor :=
  match shape x with
  | [B; T; D; C] =>
      Ok (build [B; T; C] (λ idx,
            match idx with
            | [b; t; c] => fprod ((λ d, get x [b; t; d; c]) <$> seq 0 D)
            | _ => NaN
            end))
  | _ => Raise RuntimeError
  end.

(* ===================================================================== *)
(** ** The numpy operations the initializer uses *)
(* ===================================================================== *)

Fixpoint insert_sorted (x : fval) (l : list fval) : list fval :=
  match l with
  | [] => [x]
  | y :: l' => if fle x y then x :: l else y :: insert_sorted x l'
  end.

Definition np_sort (l : list fval) : list fval := foldr insert_sorted [] l.

(** The [q]-th percentile of a non-empty 1-d array, for [0 <= q <= 100],
    by numpy's default method "linear": with [i] and [j] the sorted values
    around the fractional index [q / 100 * (n - 1)], the value
    [i + (j - i) * fraction].  An array that holds a NaN gives NaN. *)
Definition percentile_linear (a : list fval) (q : R) : fval :=
  if existsb is_nan a then NaN
  else
    let arr := np_sort a in
    let n := length a in
    let index := (q / 100 * INR (n - 1))%R in
    let below := Z.to_nat (Zfloor index) in
    let above := (below + 1) `min` (n - 1) in
    let fraction := (index - IZR (Zfloor index))%R in
    let i := arr !!! below in
    let j := arr !!! above in
    fadd i (fmul (fsub j i) (Fin fraction)).

(** [np.percentile(a, q)] on a 1-d array.  numpy first rejects a [q]
    outside [0, 100] with [ValueError]; on an empty array there is no order
    statistic to index, and it raises [IndexError]. *)
Definition np_percentile (a : list fval) (q : fval) : result fval :=
  match q with
  | Fin r =>
      if decide (0 <= r <= 100)%R then
        match a with
        | [] => Raise IndexError
        | _ => Ok (percentile_linear a r)
        end
      else Raise ValueError
  | _ => Raise ValueError
  end.

(** [np.percentile(a, q=q, axis=0)] on a 3-d array. *)
Definition np_percentile_axis0 (a : tensor) (q : fval) : result tensor :=
  match shape a, q with
  | [B; T; D], Fin r =>
      if decide (0 <= r <= 100)%R then
        match B with
        | 0 => Raise IndexError
        | _ =>
            Ok (build [T; D] (λ idx,
                  match idx with
                  | [t; d] =>
                      percentile_linear ((λ b, get a [b; t; d]) <$> seq 0 B) r
                  | _ => NaN
                  end))
        end
      else Raise ValueError
  | [_; _; _], _ => Raise ValueError
  | _, _ => Raise RuntimeError
  end.

(** [check_numpy]: a tensor and the array sharing its memory have the same
    representation here. *)
Definition check_numpy (x : tensor) : tensor := x.

(* ===================================================================== *)
(** ** Mutable state: tensor objects, the random stream, warnings *)
(* ===================================================================== *)

(** A tensor object is a location of the heap.  Tensor arguments are passed
    by reference, so two names may denote the same object. *)
Abbreviation loc := nat (only parsing).

Record world : Type := World {
  heap : list tensor;
  (** the values numpy's global generator will return next *)
  rng : nat → R;
  warnings : list string;
}.

(** A call runs in a world and ends with a value or an exception; the
    world it leaves is observable in both cases. *)
Definition M (A : Type) : Type := world → result A * world.

#[global] Instance M_ret : MRet M := λ A a w, (Ok a, w).
#[global] Instance M_bind : MBind M := λ A B f m w,
  match m w with
  | (Ok a, w') => f a w'
  | (Raise e, w') => (Raise e, w')
  end.

Definition lift {A} (r : result A) : M A := λ w, (r, w).
Definition raise {A} (e : exn) : M A := λ w, (Raise e, w).

Definition read (l : loc) : M tensor := λ w, (Ok (heap w !!! l), w).

(** [nn.Parameter(t)]: a new tensor object. *)
Definition alloc (t : tensor) : M loc := λ w,
  (Ok (length (heap w)), World (heap w ++ [t]) (rng w) (warnings w)).

(** [p.data[...] = v]: overwrite the storage of [p] in place. *)
Definition assign_data (p : loc) (v : tensor) : M unit := λ w,
  let old := heap w !!! p in
  if decide (shape v = shape old)
  then (Ok (), World (<[p := Tensor (shape old) (data v)]> (heap w)) (rng w) (warnings w))
  else (Raise RuntimeError, w).

Definition warn (msg : string) : M unit := λ w,
  (Ok (), World (heap w) (rng w) (warnings w ++ [msg])).

(** [np.random.beta(a, b, size=size)]: takes the next draws of the stream.
    The stream of the world is arbitrary: the distribution of the draws, and
    so their dependence on [a] and [b], is not represented. *)
Definition np_random_beta (a b : R) (size : list nat) : M tensor := λ w,
  if decide (0 < a ∧ 0 < b)%R
  then let n := numel size in
       (Ok (Tensor size ((λ i, Fin (rng w i)) <$> seq 0 n)),
        World (heap w) (λ i, rng w (n + i)) (warnings w))
  else (Raise ValueError, w).

(* ===================================================================== *)
(** ** The layer *)
(* ===================================================================== *)

Record ODST : Type := {
  depth : nat;
  num_trees : nat;
  tree_dim : nat;
  flatten_output : bool;
  (** [choice_function(tensor, dim)], as a function of the values of its
      argument; a function that also writes to its argument is outside
      this type *)
  choice_function : tensor → nat → tensor;
  (** [bin_function] acts on every element of its argument *)
  bin_function : fval → fval;
  threshold_init_beta : R;
  threshold_init_cutoff : R;
  response : loc;
  feature_selection_logits : loc;
  feature_thresholds : loc;
  log_temperatures : loc;
  bin_codes_1hot : loc;
}.

(** An in-place initializer, given by the value it writes at each position
    of the storage of a tensor of the given shape. *)
Definition initializer : Type := list nat → nat → fval.

Definition init_in_place (f : initializer) (t : tensor) : tensor :=
  Tensor (shape t) (f (shape t) <$> seq 0 (length (data t))).

(** Lines 102-110.  Tensor sizes and the integer tensors [indices] and
    [offsets] are unbounded integers here; for every depth whose table fits
    in memory they agree with torch's 64-bit ones. *)
Definition make_bin_codes_1hot (depth : nat) : result tensor :=
  let indices := Z.of_nat <$> seq 0 (2 ^ depth) in
  let offsets := (λ l, 2 ^ Z.of_nat l)%Z <$> seq 0 depth in
  let bin_codes :=
    build [depth; 2 ^ depth] (λ idx,
      match idx with
      | [d; c] => Fin (IZR ((indices !!! c `div` offsets !!! d) `mod` 2))
      | _ => NaN
      end) in
  stack_last bin_codes (tmap (fsub (Fin 1)) bin_codes).

Definition __init__ (in_features num_trees depth tree_output_dim : nat)
    (flatten_output : bool)
    (choice_function : tensor → nat → tensor) (bin_function : fval → fval)
    (initialize_response_ initialize_selection_logits_ : initializer)
    (threshold_init_beta threshold_init_cutoff : R) : M ODST :=
  response ← alloc (init_in_place initialize_response_
                      (torch_zeros [num_trees; tree_output_dim; 2 ^ depth]));
  feature_selection_logits ←
    alloc (init_in_place initialize_selection_logits_
             (torch_zeros [in_features; num_trees; depth]));
  feature_thresholds ← alloc (torch_full [num_trees; depth] NaN);
  log_temperatures ← alloc (torch_full [num_trees; depth] NaN);
  codes ← lift (make_bin_codes_1hot depth);
  bin_codes_1hot ← alloc codes;
  mret {| depth := depth; num_trees := num_trees; tree_dim := tree_output_dim;
          flatten_output := flatten_output;
          choice_function := choice_function; bin_function := bin_function;
          threshold_init_beta := threshold_init_beta;
          threshold_init_cutoff := threshold_init_cutoff;
          response := response;
          feature_selection_logits := feature_selection_logits;
          feature_thresholds := feature_thresholds;
          log_temperatures := log_temperatures;
          bin_codes_1hot := bin_codes_1hot |}.

(** Lines 120-125 of [forward]: the soft-selected feature values. *)
Definition forward_feature_values (self : ODST) (input : tensor) : M tensor :=
  feature_logits ← read (feature_selection_logits self);
  let feature_selectors := choice_function self feature_logits 0 in
  lift (einsum_bi_ind_bnd input feature_selectors).

(** Lines 127-141 of [forward]: from feature values to leaf weights. *)
Definition forward_response_weights (self : ODST) (feature_values : tensor)
    : M tensor :=
  thresholds ← read (feature_thresholds self);
  log_temps ← read (log_temperatures self);
  centered ← lift (broadcast fsub feature_values thresholds);
  threshold_logits ←
    lift (broadcast fmul centered (tmap fexp (tmap fneg log_temps)));
  threshold_logits ←
    lift (stack_last (tmap fneg threshold_logits) threshold_logits);
  let bins := tmap (bin_function self) threshold_logits in
  codes ← read (bin_codes_1hot self);
  bin_matches ← lift (einsum_btds_dcs_btdc bins codes);
  lift (prod_dim_m2 bin_matches).

(** Lines 118-146 of [forward]: the body run on a 2-d input. *)
Definition forward_2d (self : ODST) (input : tensor) : M tensor :=
  feature_values ← forward_feature_values self input;
  response_weights ← forward_response_weights self feature_values;
  leaves ← read (response self);
  response ← lift (einsum_bnd_ncd_bnc response_weights leaves);
  if flatten_output self then lift (flatten_1_2 response) else mret response.

(** [forward].  The recursive call of line 115 is made on a 2-d view, for
    which [forward] is [forward_2d] (lemma [forward_rank_2]). *)
Definition forward (self : ODST) (input : loc) : M tensor :=
  input ← read input;
  if decide (2 ≤ ndim input) then
    if decide (2 < ndim input) then
      flat ← lift (view input [(-1)%Z; Z.of_nat (default 0 (last (shape input)))]);
      out ← forward_2d self flat;
      lift (view out ((Z.of_nat <$> removelast (shape input)) ++ [(-1)%Z]))
    else forward_2d self input
  else raise AssertionError.

Definition small_sample_warning : string :=
  "Data-aware initialization is performed on less than 1000 data points. This may cause instability.To avoid potential problems, run this model on a data batch with at least 1000 data samples.You can do so manually before training. Use with torch.no_grad() for memory efficiency.".

(** [initialize] *)
Definition initialize (self : ODST) (input : loc) (eps : R) : M unit :=
  input ← read input;
  if decide (ndim input = 2) then
    (if decide (shape input !!! 0 < 1000) then warn small_sample_warning
     else mret ());;
    feature_logits ← read (feature_selection_logits self);
    let feature_selectors := choice_function self feature_logits 0 in
    feature_values ← lift (einsum_bi_ind_bnd input feature_selectors);
    draws ← np_random_beta (threshold_init_beta self) (threshold_init_beta self)
              [num_trees self; depth self];
    let percentiles_q := tmap (fmul (Fin 100)) draws in
    columns ← lift (flatten_1_2 feature_values ≫= transpose);
    percentiles ←
      lift (sequence (zip_with np_percentile (rows (check_numpy columns))
                               (flatten percentiles_q)));
    thresholds ←
      lift (view (torch_as_tensor percentiles)
                 [Z.of_nat (num_trees self); Z.of_nat (depth self)]);
    assign_data (feature_thresholds self) thresholds;;
    thresholds ← read (feature_thresholds self);
    deviations ← lift (broadcast fsub feature_values thresholds);
    temperatures ←
      lift (np_percentile_axis0 (check_numpy (tmap fabs deviations))
              (Fin (100 * Rmin 1 (threshold_init_cutoff self))));
    let temperatures :=
      tmap (λ v, fdiv v (Fin (Rmax 1 (threshold_init_cutoff self)))) temperatures in
    assign_data (log_temperatures self)
      (tmap flog (tmap (λ v, fadd v (Fin eps)) temperatures))
  else raise AssertionError.

(* ===================================================================== *)
(** ** Well-formed layers *)
(* ===================================================================== *)

(** The selectors of line 121. *)
Definition selectors (self : ODST) (w : world) : tensor :=
  choice_function self (heap w !!! feature_selection_logits self) 0.

(** The state of a layer with [in_features] inputs, as the constructor
    leaves it and the initializer keeps it: five distinct tensor objects of
    the documented shapes, and the routing codes of the constructor. *)
Record layer_ok (self : ODST) (w : world) (in_features : nat) : Prop := {
  ok_distinct :
    NoDup [response self; feature_selection_logits self;
           feature_thresholds self; log_temperatures self; bin_codes_1hot self];
  ok_allocated :
    Forall (λ l, l < length (heap w))
      [response self; feature_selection_logits self;
       feature_thresholds self; log_temperatures self; bin_codes_1hot self];
  ok_response :
    shape (heap w !!! response self)
    = [num_trees self; tree_dim self; 2 ^ depth self];
  ok_response_wf : wf_tensor (heap w !!! response self);
  ok_logits :
    shape (heap w !!! feature_selection_logits self)
    = [in_features; num_trees self; depth self];
  ok_logits_wf : wf_tensor (heap w !!! feature_selection_logits self);
  ok_thresholds :
    shape (heap w !!! feature_thresholds self) = [num_trees self; depth self];
  ok_thresholds_wf : wf_tensor (heap w !!! feature_thresholds self);
  ok_temperatures :
    shape (heap w !!! log_temperatures self) = [num_trees self; depth self];
  ok_temperatures_wf : wf_tensor (heap w !!! log_temperatures self);
  ok_codes :
    make_bin_codes_1hot (depth self) = Ok (heap w !!! bin_codes_1hot self);
}.

(** What the layer needs of its [choice_function]: the selectors have the
    shape of the logits. *)
Definition selectors_ok (self : ODST) (w : world) (in_features : nat) : Prop :=
  shape (selectors self w) = [in_features; num_trees self; depth self]
  ∧ wf_tensor (selectors self w).

(** Element-wise reading of lines 124-141. *)
Definition feature_value (self : ODST) (w : world) (x : tensor) (b n d : nat)
    : fval :=
  fsum ((λ i, fmul (get x [b; i]) (get (selectors self w) [i; n; d]))
          <$> seq 0 (default 0 (last (shape x)))).

Definition threshold_logit (self : ODST) (w : world) (fv : tensor) (b t d : nat)
    : fval :=
  fmul (fsub (get fv [b; t; d]) (get (heap w !!! feature_thresholds self) [t; d]))
       (fexp (fneg (get (heap w !!! log_temperatures self) [t; d]))).

Definition bin_value (self : ODST) (w : world) (fv : tensor) (b t d s : nat)
    : fval :=
  bin_function self
    (match s with
     | 0 => fneg (threshold_logit self w fv b t d)
     | _ => threshold_logit self w fv b t d
     end).

Definition bin_match (self : ODST) (w : world) (fv : tensor) (b t d c : nat)
    : fval :=
  fsum ((λ s, fmul (bin_value self w fv b t d s)
                   (get (heap w !!! bin_codes_1hot self) [d; c; s]))
          <$> seq 0 2).

Definition leaf_weight (self : ODST) (w : world) (fv : tensor) (b t c : nat)
    : fval :=
  fprod ((λ d, bin_match self w fv b t d c) <$> seq 0 (depth self)).


(** Element-wise reading of line 143, and where [forward] stores the value
    of batch element [b], tree [t] and channel [k]. *)
Definition output_value (self : ODST) (w : world) (fv : tensor) (b t k : nat)
    : fval :=
  fsum ((λ c, fmul (leaf_weight self w fv b t c)
                   (get (heap w !!! response self) [t; k; c]))
          <$> seq 0 (2 ^ depth self)).

Definition output_shape (self : ODST) (B : nat) : list nat :=
  if flatten_output self then [B; num_trees self * tree_dim self]
  else [B; num_trees self; tree_dim self].

Definition output_index (self : ODST) (b t k : nat) : list nat :=
  if flatten_output self then [b; t * tree_dim self + k] else [b; t; k].

(** The values [f[:, t, l]] of a [B × T × D] tensor across the batch, and
    their absolute deviations from the threshold of [(t, l)]. *)
Definition column (fv : tensor) (B t l : nat) : list fval :=
  (λ b, get fv [b; t; l]) <$> seq 0 B.

Definition deviation_column (fv th : tensor) (B t l : nat) : list fval :=
  (λ b, fabs (fsub (get fv [b; t; l]) (get th [t; l]))) <$> seq 0 B.

(** A finite value that is not negative. *)
Definition nonneg (v : fval) : Prop := ∃ r, v = Fin r ∧ (0 <= r)%R.

(** The bit of leaf [c] at level [l]. *)
Definition routing_bit (l c : nat) : Z :=
  ((Z.of_nat c `div` 2 ^ Z.of_nat l) `mod` 2)%Z.

(* ===================================================================== *)
(** ** Effects of a call *)
(* ===================================================================== *)

(** A computation none of whose runs ends in [AssertionError]. *)
Definition never_asserts {A} (m : M A) : Prop :=
  ∀ w, (m w).1 ≠ Raise AssertionError.

(** A computation that leaves the world as it found it. *)
Definition read_only {A} (m : M A) : Prop := ∀ w, (m w).2 = w.

(** A computation that allocates nothing and writes to no tensor object
    outside [ls]. *)
Definition writes_within (ls : list loc) {A} (m : M A) : Prop :=
  ∀ w, length (heap (m w).2) = length (heap w)
       ∧ ∀ l, l ∉ ls → heap (m w).2 !! l = heap w !! l.

(* ===================================================================== *)
(** ** The reference computation *)
(* ===================================================================== *)

(** The forward pass as the specification words it, over the real numbers
    that the (finite) tensors hold.  [x] is the input of shape
    [batch_size × in_features]. *)
Module Reference.
Section reference.

Context (self : ODST) (w : world) (in_features : nat) (x : tensor).

(** s[i,t,l]: the selection function applied to the logits along the
    input-feature axis. *)
Definition selector (i t l : nat) : R :=
  rval (get (choice_function self (heap w !!! feature_selection_logits self) 0)
            [i; t; l]).

(** f[b,t,l] = sum over features i of x[b,i] * s[i,t,l] *)
Definition soft_value (b t l : nat) : R :=
  Rsum ((λ i, rval (get x [b; i]) * selector i t l)%R <$> seq 0 in_features).

(** z[b,t,l] = (f[b,t,l] - threshold[t,l]) / exp(log_temperature[t,l]) *)
Definition scaled_distance (b t l : nat) : R :=
  ((soft_value b t l - rval (get (heap w !!! feature_thresholds self) [t; l]))
   / exp (rval (get (heap w !!! log_temperatures self) [t; l])))%R.

(** The soft decision pair [bin(-z), bin(z)]. *)
Definition decision (b t l : nat) : R * R :=
  (rval (bin_function self (Fin (- scaled_distance b t l))),
   rval (bin_function self (Fin (scaled_distance b t l)))).

(** The component of the pair matched to the code of leaf [c] at level
    [l]: the one-hot code [bit, 1 - bit] selects the first component when
    the bit is 1 and the second when it is 0. *)
Definition matched (b t l c : nat) : R :=
  if decide (routing_bit l c = 1%Z) then (decision b t l).1
  else (decision b t l).2.

(** w[b,t,c] = product over levels l of the matched decision component *)
Definition leaf_weight (b t c : nat) : R :=
  Rprod ((λ l, matched b t l c) <$> seq 0 (depth self)).


End reference.
End Reference.

(** Every tensor the forward pass reads holds finite values only. *)
Record parameters_finite (self : ODST) (w : world) : Prop := {
  fin_selectors : all_finite (selectors self w);
  fin_thresholds : all_finite (heap w !!! feature_thresholds self);
  fin_temperatures : all_finite (heap w !!! log_temperatures self);
  fin_response : all_finite (heap w !!! response self);
}.

(* ===================================================================== *)
(** ** A layer to run the statements on *)
(* ===================================================================== *)

(** Modelled from the spec: [utils.sparsemoid], the default
    [bin_function], is not among the sources.  It is the sparse sigmoid: a
    map of the reals into [0, 1] that is linear around 0 and flat outside
    [-1, 1] (the constructor's note on [threshold_init_cutoff] places all
    points between [0.5 - 0.5 / cutoff] and [0.5 + 0.5 / cutoff]), that is
    [0.5 * x + 0.5] clamped to [0, 1]. *)
Definition clamp_0_1 (v : fval) : fval :=
  match v with
  | NaN => NaN
  | Inf true => Fin 0
  | Inf false => Fin 1
  | Fin r => Fin (Rmin (Rmax r 0) 1)
  end.

Definition sparsemoid (v : fval) : fval :=
  clamp_0_1 (fadd (fmul (Fin (/ 2)) v) (Fin (/ 2))).

(** The selection among a single input feature: along an axis of size 1
    every projection onto the simplex (sparsemax included) is constantly
    1. *)
Definition choice_of_one (t : tensor) (dim : nat) : tensor :=
  tmap (λ _, Fin 1) t.

(** Two sample batches, of shapes [2 × 1] and [2 × 2 × 1], in a world whose
    random stream returns 1/2 forever. *)
Definition example_batch : tensor := Tensor [2; 1] [Fin 1; Fin 3].
Definition example_batch_3d : tensor :=
  Tensor [2; 2; 1] [Fin 1; Fin 2; Fin 3; Fin 4].

Definition example_world0 : world :=
  World [example_batch; example_batch_3d] (λ _, / 2)%R [].

(** A layer of two trees with three response channels over one input
    feature, built by the constructor. *)
Definition example_init (depth : nat) (flatten_output : bool) : M ODST :=
  __init__ 1 2 depth 3 flatten_output choice_of_one sparsemoid
    (λ _ i, Fin (INR i)) (λ _ _, Fin 0) 1 1.

Definition example_layer (depth : nat) (flatten_output : bool) : ODST :=
  {| depth := depth; num_trees := 2; tree_dim := 3;
     flatten_output := flatten_output;
     choice_function := choice_of_one; bin_function := sparsemoid;
     threshold_init_beta := 1; threshold_init_cutoff := 1;
     response := 2; feature_selection_logits := 3;
     feature_thresholds := 4; log_temperatures := 5; bin_codes_1hot := 6 |}.

Definition example_world (depth : nat) (flatten_output : bool) : world :=
  (example_init depth flatten_output example_world0).2.

(** The same layer after data-aware initialization on [example_batch]. *)
Definition example_eps : R := (/ 1000000)%R.

Definition example_world_ready (depth : nat) (flatten_output : bool) : world :=
  (initialize (example_layer depth flatten_output) 0 example_eps
     (example_world depth flatten_output)).2.
From stdpp Require Import pretty.


(* ===================================================================== *)
(** ** Further notions for the properties of the layer *)
(* ===================================================================== *)

(** A computation that leaves one component of the world as it found it,
    whether it returns or raises. *)
Definition keeps {A B} (component : world → B) (m : M A) : Prop :=
  ∀ w, component (m w).2 = component w.

(** A computation that keeps a property of the world, whether it returns
    or raises; and one whose returned values all satisfy [post]. *)
Definition preserves {A} (inv : world → Prop) (m : M A) : Prop :=
  ∀ w, inv w → inv (m w).2.
Definition returns {A} (post : A → Prop) (m : M A) : Prop :=
  ∀ w a, (m w).1 = Ok a → post a.

(** A computation that, when it returns, has taken exactly [n] draws from
    the random stream. *)
Definition consumes {A} (n : nat) (m : M A) : Prop :=
  ∀ w a, (m w).1 = Ok a → ∀ i, rng (m w).2 i = rng w (n + i).

(** The second half of [initialize], lines 184-195: the log-temperatures,
    from the feature values of line 163 and the thresholds just written. *)
Definition initialize_temperatures (self : ODST) (feature_values : tensor)
    (eps : R) : M unit :=
  thresholds ← read (feature_thresholds self);
  deviations ← lift (broadcast fsub feature_values thresholds);
  temperatures ←
    lift (np_percentile_axis0 (check_numpy (tmap fabs deviations))
            (Fin (100 * Rmin 1 (threshold_init_cutoff self))));
  let temperatures :=
    tmap (λ v, fdiv v (Fin (Rmax 1 (threshold_init_cutoff self)))) temperatures in
  assign_data (log_temperatures self)
    (tmap flog (tmap (λ v, fadd v (Fin eps)) temperatures)).

(* ===================================================================== *)
(** ** The printed form of the layer *)
(* ===================================================================== *)

(** Python's [str] of a bool. *)
Definition str_bool (b : bool) : string := if b then "True" else "False".

(** The format string of line 198, filled in; integers print in decimal.
    The class name is that of [ODST] itself. *)
Definition repr_format (in_features num_trees depth tree_dim : nat)
    (flatten_output : bool) : string :=
  "ODST(in_features=" +:+ pretty in_features
  +:+ ", num_trees=" +:+ pretty num_trees
  +:+ ", depth=" +:+ pretty depth
  +:+ ", tree_dim=" +:+ pretty tree_dim
  +:+ ", flatten_output=" +:+ str_bool flatten_output +:+ ")".

(** [__repr__]: the number of input features is read off the shape of the
    selection logits (line 200); [shape[0]] of a tensor without dimensions
    raises [IndexError]. *)
Definition __repr__ (self : ODST) : M string :=
  logits ← read (feature_selection_logits self);
  match shape logits with
  | in_features :: _ =>
      mret (repr_format in_features (num_trees self) (depth self)
              (tree_dim self) (flatten_output self))
  | [] => raise IndexError
  end.

(* ===================================================================== *)
(** ** More layers to run the statements on *)
(* ===================================================================== *)

(** The selection among equal logits: softmax and sparsemax both give
    [1 / n] along an axis of size [n].  The layers below have all their
    logits zero. *)
Definition choice_uniform (t : tensor) (dim : nat) : tensor :=
  tmap (λ _, Fin (/ INR (shape t !!! dim))) t.

(** A batch of three features, an empty batch of shape [0 × 2 × 1], and a
    batch of three rows whose first row is the last row of
    [example_batch]. *)
Definition example_batch_wide : tensor :=
  Tensor [2; 3] [Fin 1; Fin 2; Fin 3; Fin 4; Fin 5; Fin 6].
Definition example_batch_empty : tensor := Tensor [0; 2; 1] [].
Definition example_batch_more : tensor := Tensor [3; 1] [Fin 3; Fin 0; Fin 7].
(** [example_batch] with its two rows exchanged. *)
Definition example_batch_swapped : tensor := Tensor [2; 1] [Fin 3; Fin 1].

Definition example_world1 : world :=
  World [example_batch; example_batch_wide; example_batch_empty;
         example_batch_more; example_batch_swapped]
        (λ _, / 2)%R [].

(** The layer of two trees of depth 1 with three response channels that the
    constructor builds in [example_world1], for a given number of input
    features and given hyperparameters of the initializer. *)
Definition example_init_with (in_features : nat) (beta cutoff : R) : M ODST :=
  __init__ in_features 2 1 3 true choice_uniform sparsemoid
    (λ _ i, Fin (INR i)) (λ _ _, Fin 0) beta cutoff.

Definition example_layer_with (beta cutoff : R) : ODST :=
  {| depth := 1; num_trees := 2; tree_dim := 3; flatten_output := true;
     choice_function := choice_uniform; bin_function := sparsemoid;
     threshold_init_beta := beta; threshold_init_cutoff := cutoff;
     response := 5; feature_selection_logits := 6;
     feature_thresholds := 7; log_temperatures := 8; bin_codes_1hot := 9 |}.

Definition example_world_with (in_features : nat) : world :=
  (example_init_with in_features 1 1 example_world1).2.

(** The example layer of depth 1 with all thresholds and log-temperatures
    set to 0 (as a loaded state could have them), written through the
    parameters' [data]. *)
Definition example_world_loaded : world :=
  ((assign_data (feature_thresholds (example_layer 1 true)) (torch_zeros [2; 1]);;
    assign_data (log_temperatures (example_layer 1 true)) (torch_zeros [2; 1]))
     (example_world 1 true)).2.

(** The layer built with another value of [flatten_output]: the same
    tensor objects and functions, only the flag of line 145 differs. *)
Definition with_flatten_output (fl : bool) (self : ODST) : ODST :=
  {| depth := depth self; num_trees := num_trees self;
     tree_dim := tree_dim self; flatten_output := fl;
     choice_function := choice_function self;
     bin_function := bin_function self;
     threshold_init_beta := threshold_init_beta self;
     threshold_init_cutoff := threshold_init_cutoff self;
     response := response self;
     feature_selection_logits := feature_selection_logits self;
     feature_thresholds := feature_thresholds self;
     log_temperatures := log_temperatures self;
     bin_codes_1hot := bin_codes_1hot self |}.

(** The loaded example layer after the threshold of its second tree has
    been moved to 5. *)
Definition example_world_moved : world :=
  (assign_data (feature_thresholds (example_layer 1 true))
     (Tensor [2; 1] [Fin 0; Fin 5]) example_world_loaded).2.


(* ===================================================================== *)
(** ** Facts about tensors and their operations *)
(* ===================================================================== *)

Section tensor_lemmas.

Lemma length_indices sh : length (indices sh) = numel sh.
Proof.
  induction sh as [|n sh IH]; simpl; [done|].
  generalize 0. induction n as [|n IHn]; intros k; simpl; [done|].
  rewrite length_app, length_fmap, IH, IHn. done.
Qed.

Lemma indices_lookup sh idx :
  in_bounds sh idx → indices sh !! offset sh idx = Some idx.
Proof.
  intros Hb. induction Hb as [|n i sh idx Hi Hb IH]; simpl; [done|].
  assert (Hgen : ∀ k, (j ← seq k n; cons j <$> indices sh)
              !! (i * numel sh + offset sh idx) = Some ((k + i) :: idx)).
  { clear Hb. revert i Hi. induction n as [|n IHn]; intros i Hi k; [lia|].
    simpl. destruct i as [|i].
    - rewrite lookup_app_l.
      + rewrite list_lookup_fmap. simpl. rewrite IH. simpl.
        by rewrite Nat.add_0_r.
      + rewrite length_fmap, length_indices. simpl.
        apply lookup_lt_Some in IH. by rewrite length_indices in IH.
    - rewrite lookup_app_r; rewrite length_fmap, length_indices; [|simpl; lia].
      replace (S i * numel sh + offset sh idx - numel sh)
        with (i * numel sh + offset sh idx) by (simpl; lia).
      rewrite IHn by lia. f_equal. f_equal. lia. }
  apply (Hgen 0).
Qed.

Lemma offset_lt sh idx : in_bounds sh idx → offset sh idx < numel sh.
Proof.
  intros Hb. apply indices_lookup, lookup_lt_Some in Hb.
  by rewrite length_indices in Hb.
Qed.

Lemma get_build sh f idx : in_bounds sh idx → get (build sh f) idx = f idx.
Proof.
  intros Hb. unfold get, build. simpl.
  apply list_lookup_total_correct.
  by rewrite list_lookup_fmap, indices_lookup.
Qed.

Lemma build_wf sh f : wf_tensor (build sh f).
Proof. unfold wf_tensor, build. simpl. by rewrite length_fmap, length_indices. Qed.

Lemma build_all_finite sh f :
  (∀ idx, in_bounds sh idx → finite (f idx)) → all_finite (build sh f).
Proof.
  intros Hf. unfold all_finite, build. simpl.
  apply Forall_fmap, Forall_forall. intros idx Hidx. simpl. apply Hf.
  clear Hf f. revert idx Hidx.
  induction sh as [|n sh IH]; intros idx Hidx; simpl in Hidx.
  - apply list_elem_of_singleton in Hidx as ->. constructor.
  - apply list_elem_of_bind in Hidx as (i & Hidx & Hi).
    apply list_elem_of_fmap in Hidx as (idx' & -> & Hidx').
    apply elem_of_seq in Hi. constructor; [lia | by apply IH].
Qed.

Lemma get_finite t idx :
  wf_tensor t → all_finite t → in_bounds (shape t) idx → finite (get t idx).
Proof.
  intros Hwf Hfin Hb. unfold get.
  apply offset_lt in Hb. rewrite <- Hwf in Hb.
  destruct (lookup_lt_is_Some_2 _ _ Hb) as [v Hv].
  rewrite (list_lookup_total_correct _ _ _ Hv).
  eapply Forall_lookup_1; eauto.
Qed.

End tensor_lemmas.

Arguments build : simpl never.
Arguments get : simpl never.

Section operation_lemmas.

Lemma in_bounds_2 a b i j : i < a → j < b → in_bounds [a; b] [i; j].
Proof. intros. repeat constructor; done. Qed.

Lemma in_bounds_3 a b c i j k :
  i < a → j < b → k < c → in_bounds [a; b; c] [i; j; k].
Proof. intros. repeat constructor; done. Qed.

Lemma in_bounds_4 a b c d i j k l :
  i < a → j < b → k < c → l < d → in_bounds [a; b; c; d] [i; j; k; l].
Proof. intros. repeat constructor; done. Qed.

Lemma shape_build sh f : shape (build sh f) = sh.
Proof. done. Qed.

Lemma shape_tmap f t : shape (tmap f t) = shape t.
Proof. done. Qed.

Lemma tmap_wf f t : wf_tensor t → wf_tensor (tmap f t).
Proof. unfold wf_tensor, tmap. simpl. by rewrite length_fmap. Qed.

Lemma get_tmap f t idx :
  wf_tensor t → in_bounds (shape t) idx → get (tmap f t) idx = f (get t idx).
Proof.
  intros Hwf Hb. unfold get, tmap. simpl.
  apply offset_lt in Hb. rewrite <- Hwf in Hb.
  by apply list_lookup_total_fmap.
Qed.

(** A tensor is determined by its shape and its elements. *)
Lemma build_get t : wf_tensor t → build (shape t) (get t) = t.
Proof.
  intros Hwf. destruct t as [sh d]. unfold build, get, wf_tensor in *.
  simpl in *. f_equal.
  apply list_eq. intros i. rewrite list_lookup_fmap.
  destruct (decide (i < numel sh)) as [Hi|Hi].
  - assert (is_Some (indices sh !! i)) as [idx Hidx]
      by (apply lookup_lt_is_Some; by rewrite length_indices).
    rewrite Hidx. simpl.
    assert (offset sh idx = i) as ->.
    { clear d Hwf. revert i idx Hi Hidx.
      induction sh as [|n sh IH]; intros i idx Hi Hidx; simpl in *.
      - destruct i; [|lia]. by inversion Hidx.
      - assert (Hgen : ∀ k m j, (x ← seq k m; cons x <$> indices sh) !! j = Some idx →
                 ∃ a rest, idx = (k + a) :: rest ∧ a < m
                           ∧ indices sh !! (j - a * numel sh) = Some rest
                           ∧ a * numel sh ≤ j).
        { clear. intros k m. revert k. induction m as [|m IHm]; intros k j Hj.
          - done.
          - simpl in Hj. destruct (decide (j < numel sh)) as [Hlt|Hge].
            + rewrite lookup_app_l in Hj by (by rewrite length_fmap, length_indices).
              rewrite list_lookup_fmap in Hj.
              destruct (indices sh !! j) as [rest|] eqn:Hr; [|done].
              inversion Hj. exists 0, rest. rewrite Nat.add_0_r, Nat.sub_0_r.
              repeat split; [lia | done | simpl; lia].
            + rewrite lookup_app_r in Hj; rewrite length_fmap, length_indices in *; [|lia].
              apply IHm in Hj as (a & rest & -> & Ha & Hr & Hle).
              exists (S a), rest. repeat split.
              * f_equal. lia.
              * lia.
              * replace (j - S a * numel sh) with (j - numel sh - a * numel sh)
                  by (simpl; lia). done.
              * simpl. lia. }
        apply Hgen in Hidx as (a & rest & -> & Ha & Hr & Hle). simpl.
        assert (j_lt : i - a * numel sh < numel sh).
        { apply lookup_lt_Some in Hr. by rewrite length_indices in Hr. }
        rewrite (IH _ _ j_lt Hr). lia. }
    symmetry. apply list_lookup_lookup_total_lt. lia.
  - rewrite !lookup_ge_None_2; [done | lia | rewrite length_indices; lia].
Qed.

Lemma get_reshape sh t idx' idx :
  offset sh idx' = offset (shape t) idx →
  get (Tensor sh (data t)) idx' = get t idx.
Proof. unfold get. simpl. by intros ->. Qed.

Lemma einsum_bi_ind_bnd_run x s B F N D :
  shape x = [B; F] → shape s = [F; N; D] →
  einsum_bi_ind_bnd x s =
  Ok (build [B; N; D] (λ idx,
        match idx with
        | [b; n; d] => fsum ((λ i, fmul (get x [b; i]) (get s [i; n; d])) <$> seq 0 F)
        | _ => NaN
        end)).
Proof. intros Hx Hs. unfold einsum_bi_ind_bnd. rewrite Hx, Hs. by rewrite decide_True. Qed.

Lemma einsum_btds_dcs_btdc_run x y B T D P C :
  shape x = [B; T; D; P] → shape y = [D; C; P] →
  einsum_btds_dcs_btdc x y =
  Ok (build [B; T; D; C] (λ idx,
        match idx with
        | [b; t; d; c] =>
            fsum ((λ s, fmul (get x [b; t; d; s]) (get y [d; c; s])) <$> seq 0 P)
        | _ => NaN
        end)).
Proof. intros Hx Hy. unfold einsum_btds_dcs_btdc. rewrite Hx, Hy. by rewrite decide_True. Qed.

Lemma einsum_bnd_ncd_bnc_run x y B N D C :
  shape x = [B; N; D] → shape y = [N; C; D] →
  einsum_bnd_ncd_bnc x y =
  Ok (build [B; N; C] (λ idx,
        match idx with
        | [b; n; c] =>
            fsum ((λ d, fmul (get x [b; n; d]) (get y [n; c; d])) <$> seq 0 D)
        | _ => NaN
        end)).
Proof. intros Hx Hy. unfold einsum_bnd_ncd_bnc. rewrite Hx, Hy. by rewrite decide_True. Qed.

Lemma broadcast_run op a b pre :
  shape a = pre ++ shape b →
  broadcast op a b =
  Ok (build (shape a) (λ idx, op (get a idx) (get b (drop (length pre) idx)))).
Proof.
  intros Ha. unfold broadcast, ndim.
  assert (length (shape a) - length (shape b) = length pre) as ->.
  { rewrite Ha, length_app. lia. }
  rewrite decide_True; [done|]. by rewrite Ha, drop_app_length.
Qed.

Lemma stack_last_run a b :
  shape a = shape b →
  stack_last a b =
  Ok (build (shape a ++ [2]) (λ idx,
        match last idx with
        | Some 0 => get a (removelast idx)
        | Some _ => get b (removelast idx)
        | None => NaN
        end)).
Proof. intros Hs. unfold stack_last. by rewrite decide_True. Qed.

End operation_lemmas.

(* ===================================================================== *)
(** ** Running a call *)
(* ===================================================================== *)

Section running.

Lemma run_bind {A B} (m : M A) (f : A → M B) w a w' :
  m w = (Ok a, w') → (m ≫= f) w = f a w'.
Proof. intros Hm. unfold mbind, M_bind. by rewrite Hm. Qed.

Lemma run_read {B} l (f : tensor → M B) w :
  (read l ≫= f) w = f (heap w !!! l) w.
Proof. done. Qed.

Lemma run_lift {A B} (r : result A) (f : A → M B) w a :
  r = Ok a → (lift r ≫= f) w = f a w.
Proof. by intros ->. Qed.

End running.

Ltac shapes :=
  repeat first
    [ progress rewrite ?shape_build, ?shape_tmap
    | match goal with H : shape _ = _ |- _ => rewrite H end ].

Section operation_specs.

Lemma broadcast_spec op a b pre :
  shape a = pre ++ shape b →
  ∃ r, broadcast op a b = Ok r ∧ shape r = shape a ∧ wf_tensor r
       ∧ ∀ idx, in_bounds (shape a) idx →
           get r idx = op (get a idx) (get b (drop (length pre) idx)).
Proof.
  intros Ha. eexists. split; [by apply broadcast_run|].
  split; [done|]. split; [apply build_wf|].
  intros idx Hidx. by rewrite get_build.
Qed.

Lemma stack_last_spec a b :
  shape a = shape b →
  ∃ r, stack_last a b = Ok r ∧ shape r = shape a ++ [2] ∧ wf_tensor r
       ∧ ∀ idx, in_bounds (shape a) idx →
           get r (idx ++ [0]) = get a idx ∧ get r (idx ++ [1]) = get b idx.
Proof.
  intros Hab. eexists. split; [by apply stack_last_run|].
  split; [done|]. split; [apply build_wf|].
  intros idx Hidx.
  assert (Hb : ∀ s, s < 2 → in_bounds (shape a ++ [2]) (idx ++ [s])).
  { intros s Hs. apply Forall2_app; [done|]. constructor; [done|constructor]. }
  rewrite !get_build by (apply Hb; lia).
  by rewrite !last_snoc, !removelast_last.
Qed.

Lemma einsum_btds_dcs_btdc_spec x y B T D P C :
  shape x = [B; T; D; P] → shape y = [D; C; P] →
  ∃ r, einsum_btds_dcs_btdc x y = Ok r ∧ shape r = [B; T; D; C] ∧ wf_tensor r
       ∧ ∀ b t d c, b < B → t < T → d < D → c < C →
           get r [b; t; d; c]
           = fsum ((λ s, fmul (get x [b; t; d; s]) (get y [d; c; s])) <$> seq 0 P).
Proof.
  intros Hx Hy. eexists. split; [by eapply einsum_btds_dcs_btdc_run|].
  split; [done|]. split; [apply build_wf|].
  intros b t d c Hb Ht Hd Hc. by rewrite get_build by (by apply in_bounds_4).
Qed.

Lemma einsum_bnd_ncd_bnc_spec x y B N D C :
  shape x = [B; N; D] → shape y = [N; C; D] →
  ∃ r, einsum_bnd_ncd_bnc x y = Ok r ∧ shape r = [B; N; C] ∧ wf_tensor r
       ∧ ∀ b n c, b < B → n < N → c < C →
           get r [b; n; c]
           = fsum ((λ d, fmul (get x [b; n; d]) (get y [n; c; d])) <$> seq 0 D).
Proof.
  intros Hx Hy. eexists. split; [by eapply einsum_bnd_ncd_bnc_run|].
  split; [done|]. split; [apply build_wf|].
  intros b n c Hb Hn Hc. by rewrite get_build by (by apply in_bounds_3).
Qed.

Lemma prod_dim_m2_spec x B T D C :
  shape x = [B; T; D; C] →
  ∃ r, prod_dim_m2 x = Ok r ∧ shape r = [B; T; C] ∧ wf_tensor r
       ∧ ∀ b t c, b < B → t < T → c < C →
           get r [b; t; c] = fprod ((λ d, get x [b; t; d; c]) <$> seq 0 D).
Proof.
  intros Hx. unfold prod_dim_m2. rewrite Hx. eexists. split; [done|].
  split; [done|]. split; [apply build_wf|].
  intros b t c Hb Ht Hc. by rewrite get_build by (by apply in_bounds_3).
Qed.

Lemma lookup_total_fmap_seq {A} `{Inhabited A} (f : nat → A) n i :
  i < n → (f <$> seq 0 n) !!! i = f i.
Proof.
  intros Hi. apply list_lookup_total_correct.
  by rewrite list_lookup_fmap, lookup_seq_lt.
Qed.

Lemma fmap_seq_ext {A} (f g : nat → A) n :
  (∀ i, i < n → f i = g i) → f <$> seq 0 n = g <$> seq 0 n.
Proof.
  intros Hfg. apply list_fmap_ext. intros i x [-> Hi]%lookup_seq. by apply Hfg.
Qed.

End operation_specs.

Section forward_runs.

Context (self : ODST) (w : world) (in_features : nat).
Hypothesis Hok : layer_ok self w in_features.

Lemma codes_shape :
  shape (heap w !!! bin_codes_1hot self) = [depth self; 2 ^ depth self; 2].
Proof.
  pose proof (ok_codes _ _ _ Hok) as Hc. unfold make_bin_codes_1hot in Hc.
  rewrite stack_last_run in Hc by done. inversion Hc as [Hc']. done.
Qed.

Lemma forward_feature_values_run x B :
  selectors_ok self w in_features →
  shape x = [B; in_features] →
  ∃ fv, forward_feature_values self x w = (Ok fv, w)
        ∧ shape fv = [B; num_trees self; depth self]
        ∧ wf_tensor fv
        ∧ ∀ b n d, b < B → n < num_trees self → d < depth self →
            get fv [b; n; d] = feature_value self w x b n d.
Proof.
  intros [Hs Hswf] Hx. eexists. split; [|split; [|split]].
  - unfold forward_feature_values. rewrite run_read.
    fold (selectors self w).
    by rewrite (einsum_bi_ind_bnd_run _ _ _ _ _ _ Hx Hs).
  - done.
  - apply build_wf.
  - intros b n d Hb Hn Hd. rewrite get_build by (by apply in_bounds_3).
    unfold feature_value. by rewrite Hx.
Qed.

Lemma forward_response_weights_run fv B :
  shape fv = [B; num_trees self; depth self] →
  wf_tensor fv →
  ∃ rw, forward_response_weights self fv w = (Ok rw, w)
        ∧ shape rw = [B; num_trees self; 2 ^ depth self]
        ∧ wf_tensor rw
        ∧ ∀ b t c, b < B → t < num_trees self → c < 2 ^ depth self →
            get rw [b; t; c] = leaf_weight self w fv b t c.
Proof.
  intros Hfv Hwf.
  pose proof (ok_thresholds _ _ _ Hok) as Hth.
  pose proof (ok_temperatures _ _ _ Hok) as Hlt.
  pose proof (ok_thresholds_wf _ _ _ Hok) as Hthwf.
  pose proof (ok_temperatures_wf _ _ _ Hok) as Hltwf.
  pose proof codes_shape as Hcs.
  destruct (broadcast_spec fsub fv (heap w !!! feature_thresholds self) [B])
    as (ce & Hce & Hces & Hcewf & Hceg); [by shapes|].
  destruct (broadcast_spec fmul ce
              (tmap fexp (tmap fneg (heap w !!! log_temperatures self))) [B])
    as (tl & Htl & Htls & Htlwf & Htlg); [by shapes|].
  destruct (stack_last_spec (tmap fneg tl) tl eq_refl)
    as (st & Hst & Hsts & Hstwf & Hstg).
  destruct (einsum_btds_dcs_btdc_spec (tmap (bin_function self) st)
              (heap w !!! bin_codes_1hot self)
              B (num_trees self) (depth self) 2 (2 ^ depth self))
    as (bm & Hbm & Hbms & Hbmwf & Hbmg); [by shapes|done|].
  destruct (prod_dim_m2_spec bm _ _ _ _ Hbms) as (rw & Hrw & Hrws & Hrwwf & Hrwg).
  exists rw. split; [|split; [done|split; [done|]]].
  - unfold forward_response_weights. rewrite !run_read.
    rewrite (run_lift _ _ _ _ Hce), (run_lift _ _ _ _ Htl), (run_lift _ _ _ _ Hst).
    cbv zeta. rewrite run_read, (run_lift _ _ _ _ Hbm). unfold lift. by rewrite Hrw.
  - intros b t c Hb Ht Hc. rewrite Hrwg by done.
    unfold leaf_weight. f_equal. apply fmap_seq_ext. intros d Hd.
    rewrite Hbmg by done.
    unfold bin_match. f_equal. apply fmap_seq_ext. intros s Hs. f_equal.
    assert (Hin3 : in_bounds [B; num_trees self; depth self] [b; t; d])
      by (by apply in_bounds_3).
    assert (Hv : get tl [b; t; d] = threshold_logit self w fv b t d).
    { rewrite Htlg by (rewrite Hces, Hfv; exact Hin3).
      rewrite Hceg by (rewrite Hfv; exact Hin3). simpl.
      unfold threshold_logit. f_equal.
      rewrite get_tmap; [|by apply tmap_wf|by shapes; apply in_bounds_2].
      f_equal. rewrite get_tmap; [done|done|by shapes; apply in_bounds_2]. }
    rewrite get_tmap; [|done|shapes; by apply in_bounds_4].
    unfold bin_value. f_equal.
    destruct (Hstg [b; t; d]) as [Hs0 Hs1]; [by shapes|].
    simpl in Hs0, Hs1.
    rewrite get_tmap in Hs0 by (by shapes).
    destruct s as [|[|s]]; [| |lia].
    + by rewrite Hs0, Hv.
    + by rewrite Hs1, Hv.
Qed.

End forward_runs.

Section forward_2d_runs.

Context (self : ODST) (w : world) (in_features : nat).
Hypothesis Hok : layer_ok self w in_features.
Hypothesis Hsel : selectors_ok self w in_features.

Lemma forward_2d_run x B :
  shape x = [B; in_features] →
  ∃ out fv,
    forward_2d self x w = (Ok out, w)
    ∧ forward_feature_values self x w = (Ok fv, w)
    ∧ shape out = output_shape self B
    ∧ wf_tensor out
    ∧ ∀ b t k, b < B → t < num_trees self → k < tree_dim self →
        get out (output_index self b t k) = output_value self w fv b t k.
Proof.
  intros Hx.
  destruct (forward_feature_values_run self w in_features x B Hsel Hx)
    as (fv & Hfv & Hfvs & Hfvwf & _).
  destruct (forward_response_weights_run self w in_features Hok fv B Hfvs Hfvwf)
    as (rw & Hrw & Hrws & Hrwwf & Hrwg).
  destruct (einsum_bnd_ncd_bnc_spec rw (heap w !!! response self)
              B (num_trees self) (2 ^ depth self) (tree_dim self) Hrws
              (ok_response _ _ _ Hok))
    as (out & Hout & Houts & Houtwf & Houtg).
  assert (Hval : ∀ b t k, b < B → t < num_trees self → k < tree_dim self →
            get out [b; t; k] = output_value self w fv b t k).
  { intros b t k Hb Ht Hk. rewrite Houtg by done. unfold output_value.
    f_equal. apply fmap_seq_ext. intros c Hc. f_equal. by apply Hrwg. }
  assert (Hrun : ∀ k : tensor → M tensor,
            (forward_feature_values self x ≫= λ fv,
               forward_response_weights self fv ≫= λ rw,
                 read (response self) ≫= λ leaves,
                   lift (einsum_bnd_ncd_bnc rw leaves) ≫= k) w = k out w).
  { intros k. rewrite (run_bind _ _ _ _ _ Hfv), (run_bind _ _ _ _ _ Hrw), run_read.
    by rewrite (run_lift _ _ _ _ Hout). }
  unfold forward_2d, output_shape, output_index. rewrite Hrun.
  destruct (flatten_output self).
  - exists (Tensor [B; num_trees self * tree_dim self] (data out)), fv.
    split; [|split; [done|split; [done|split]]].
    + unfold lift, flatten_1_2. by rewrite Houts.
    + unfold wf_tensor in *. simpl. rewrite Houtwf, Houts. simpl. lia.
    + intros b t k Hb Ht Hk. rewrite <- Hval by done.
      apply get_reshape. rewrite Houts. simpl. lia.
  - exists out, fv. done.
Qed.

End forward_2d_runs.

Section scalar_lemmas.

Lemma fmul_1_l v : fmul (Fin 1) v = v.
Proof.
  destruct v as [|s|r]; simpl; [done| |by rewrite Rmult_1_l].
  unfold inf_times. rewrite decide_False by lra.
  rewrite bool_decide_eq_false_2 by lra. by destruct s.
Qed.

Lemma fadd_0_r v : fadd v (Fin 0) = v.
Proof. destruct v as [|s|r]; simpl; [done|done|by rewrite Rplus_0_r]. Qed.

Lemma fsum_finite (l : list fval) :
  Forall finite l → fsum l = Fin (Rsum (rval <$> l)).
Proof.
  unfold fsum. induction 1 as [|v l [r ->] _ IH]; simpl; [done|].
  by rewrite IH.
Qed.


End scalar_lemmas.

Section view_lemmas.

Lemma numel_app sh1 sh2 : numel (sh1 ++ sh2) = numel sh1 * numel sh2.
Proof. induction sh1 as [|n sh1 IH]; simpl; [lia|]. rewrite IH. lia. Qed.

Lemma view_flat t n F :
  F ≠ 0 → numel (shape t) = n * F →
  view t [(-1)%Z; Z.of_nat F] = Ok (Tensor [n; F] (data t)).
Proof.
  intros HF Hn. unfold view.
  rewrite bool_decide_eq_false_2; last first.
  { rewrite !Exists_cons, Exists_nil. lia. }
  rewrite !filter_cons, filter_nil.
  rewrite (decide_False (P := (-1 ≠ -1)%Z)) by lia.
  rewrite (decide_True (P := (Z.of_nat F ≠ -1)%Z)) by lia.
  rewrite (decide_True (P := (-1 = -1)%Z)) by lia.
  rewrite (decide_False (P := (Z.of_nat F = -1)%Z)) by lia.
  simpl length. cbv iota. simpl foldr.
  replace (Z.to_nat (Z.of_nat F * 1)) with F by lia.
  rewrite Hn. rewrite decide_True; last first.
  { split; [done|]. by rewrite Nat.Div0.mod_mul. }
  simpl. rewrite (decide_False (P := (Z.of_nat F = -1)%Z)) by lia.
  rewrite Nat.div_mul by done. by rewrite Nat2Z.id.
Qed.

Lemma view_lead_unfold t lead :
  view t ((Z.of_nat <$> lead) ++ [(-1)%Z])
  = if decide (numel lead ≠ 0 ∧ numel (shape t) `mod` numel lead = 0)
    then Ok (Tensor (lead ++ [numel (shape t) `div` numel lead]) (data t))
    else Raise RuntimeError.
Proof.
  unfold view.
  rewrite bool_decide_eq_false_2; last first.
  { rewrite Exists_app, Exists_cons, Exists_nil, Exists_fmap, Exists_exists.
    intros [(x & _ & Hx)|[?|[]]]; simpl in *; lia. }
  assert (Hf1 : filter (λ d, d ≠ (-1)%Z) ((Z.of_nat <$> lead) ++ [(-1)%Z])
                = Z.of_nat <$> lead).
  { rewrite filter_app, filter_cons, filter_nil, decide_False by lia.
    rewrite app_nil_r. clear. induction lead as [|a l IH]; [done|].
    rewrite fmap_cons, filter_cons, decide_True by lia. by rewrite IH. }
  assert (Hf2 : filter (λ d, d = (-1)%Z) ((Z.of_nat <$> lead) ++ [(-1)%Z])
                = [(-1)%Z]).
  { rewrite filter_app, filter_cons, filter_nil, decide_True by lia.
    clear. induction lead as [|a l IH]; [done|].
    rewrite fmap_cons, filter_cons, decide_False by lia.
    by rewrite IH. }
  assert (Hp : Z.to_nat (foldr Z.mul 1%Z (Z.of_nat <$> lead)) = numel lead).
  { clear. assert (foldr Z.mul 1%Z (Z.of_nat <$> lead) = Z.of_nat (numel lead)) as ->.
    { induction lead as [|a l IH]; [done|].
      rewrite fmap_cons. cbn [foldr numel]. rewrite IH. fold (numel l). lia. }
    apply Nat2Z.id. }
  rewrite Hf1, Hf2, Hp. simpl length. cbv iota.
  case_decide; [|done].
  f_equal. f_equal. rewrite fmap_app. simpl. f_equal.
  generalize (numel (shape t) `div` numel lead). clear. intros q.
  induction lead as [|a l IH]; [done|]. rewrite !fmap_cons.
  rewrite decide_False by lia. by rewrite Nat2Z.id, IH.
Qed.

Lemma view_lead t lead m :
  numel lead ≠ 0 → numel (shape t) = numel lead * m →
  view t ((Z.of_nat <$> lead) ++ [(-1)%Z]) = Ok (Tensor (lead ++ [m]) (data t)).
Proof.
  intros Hl Hn. rewrite view_lead_unfold, Hn.
  rewrite decide_True; last first.
  { split; [done|]. rewrite Nat.mul_comm. by rewrite Nat.Div0.mod_mul. }
  do 3 f_equal. rewrite Nat.mul_comm. by rewrite Nat.div_mul.
Qed.

(** A leading dimension of size 0 leaves the [-1] of the final view
    undetermined, and torch rejects it. *)
Lemma view_lead_empty t lead :
  numel lead = 0 →
  view t ((Z.of_nat <$> lead) ++ [(-1)%Z]) = Raise RuntimeError.
Proof.
  intros Hl. rewrite view_lead_unfold. rewrite decide_False; [done|]. tauto.
Qed.

End view_lemmas.

Section forward_any_rank.

Context (self : ODST) (w : world) (in_features : nat).
Hypothesis Hok : layer_ok self w in_features.
Hypothesis Hsel : selectors_ok self w in_features.

(** The recursive call of line 115 receives a 2-d tensor. *)
Lemma forward_rank_2 input :
  ndim (heap w !!! input) = 2 →
  forward self input w = forward_2d self (heap w !!! input) w.
Proof.
  intros Hr. unfold forward. rewrite run_read.
  rewrite decide_True by lia. by rewrite decide_False by lia.
Qed.

(** Inputs with more than two dimensions: the 2-d body runs on the
    flattened leading dimensions, and its result is viewed back with one
    trailing dimension. *)
Lemma forward_nd_run input lead :
  shape (heap w !!! input) = lead ++ [in_features] →
  2 ≤ length lead → in_features ≠ 0 → numel lead ≠ 0 →
  ∃ out out2,
    forward self input w = (Ok out, w)
    ∧ forward_2d self (Tensor [numel lead; in_features] (data (heap w !!! input))) w
      = (Ok out2, w)
    ∧ shape out = lead ++ [num_trees self * tree_dim self]
    ∧ data out = data out2.
Proof.
  intros Hx Hlen HF Hlead.
  set (x := heap w !!! input) in *.
  set (flat := Tensor [numel lead; in_features] (data x)).
  destruct (forward_2d_run self w in_features Hok Hsel flat (numel lead) eq_refl)
    as (out2 & fv & Hrun & _ & Hshape & Hwf & _).
  exists (Tensor (lead ++ [num_trees self * tree_dim self]) (data out2)), out2.
  split; [|done].
  unfold forward. rewrite run_read. fold x.
  assert (ndim x = length lead + 1) as Hnd
    by (unfold ndim; rewrite Hx, length_app; simpl; lia).
  rewrite decide_True by lia. rewrite decide_True by lia.
  rewrite Hx, last_snoc, removelast_last. simpl default.
  erewrite run_lift; last first.
  { apply (view_flat _ (numel lead)); [done|].
    rewrite Hx, numel_app. unfold numel. simpl. ring. }
  fold flat. rewrite (run_bind _ _ _ _ _ Hrun).
  unfold lift. rewrite (view_lead _ _ (num_trees self * tree_dim self)); [done|done|].
  rewrite Hshape. unfold output_shape, numel.
  destruct (flatten_output self); simpl; ring.
Qed.

(** With an empty leading dimension the 2-d body runs, and the final view
    of line 115 raises. *)
Lemma forward_nd_empty_raises input lead :
  shape (heap w !!! input) = lead ++ [in_features] →
  2 ≤ length lead → in_features ≠ 0 → numel lead = 0 →
  forward self input w = (Raise RuntimeError, w).
Proof.
  intros Hx Hlen HF Hlead.
  set (x := heap w !!! input) in *.
  set (flat := Tensor [numel lead; in_features] (data x)).
  destruct (forward_2d_run self w in_features Hok Hsel flat (numel lead) eq_refl)
    as (out2 & fv & Hrun & _ & Hshape & Hwf & _).
  unfold forward. rewrite run_read. fold x.
  assert (ndim x = length lead + 1) as Hnd
    by (unfold ndim; rewrite Hx, length_app; simpl; lia).
  rewrite decide_True by lia. rewrite decide_True by lia.
  rewrite Hx, last_snoc, removelast_last. simpl default.
  erewrite run_lift; last first.
  { apply (view_flat _ (numel lead)); [done|].
    rewrite Hx, numel_app. unfold numel. simpl. ring. }
  fold flat. rewrite (run_bind _ _ _ _ _ Hrun).
  unfold lift. by rewrite view_lead_empty.
Qed.

End forward_any_rank.

Section assertion.

Lemma never_asserts_bind {A B} (m : M A) (f : A → M B) :
  never_asserts m → (∀ a, never_asserts (f a)) → never_asserts (m ≫= f).
Proof.
  intros Hm Hf w. unfold mbind, M_bind. specialize (Hm w).
  destruct (m w) as [[a|e] w']; simpl in *; [apply Hf | intros [=->]; by apply Hm].
Qed.

Lemma never_asserts_read l : never_asserts (read l).
Proof. by intros w. Qed.

Lemma never_asserts_ret {A} (a : A) : never_asserts (mret a).
Proof. by intros w. Qed.

Lemma never_asserts_lift {A} (r : result A) :
  r ≠ Raise AssertionError → never_asserts (lift r).
Proof. by intros Hr w. Qed.

Lemma view_not_assertion t dims : view t dims ≠ Raise AssertionError.
Proof. unfold view. repeat case_match; done. Qed.

Lemma flatten_1_2_not_assertion t : flatten_1_2 t ≠ Raise AssertionError.
Proof. unfold flatten_1_2. repeat case_match; done. Qed.

Lemma broadcast_not_assertion op a b : broadcast op a b ≠ Raise AssertionError.
Proof. unfold broadcast. case_decide; done. Qed.

Lemma stack_last_not_assertion a b : stack_last a b ≠ Raise AssertionError.
Proof. unfold stack_last. case_decide; done. Qed.

Lemma einsum_bi_ind_bnd_not_assertion x s :
  einsum_bi_ind_bnd x s ≠ Raise AssertionError.
Proof. unfold einsum_bi_ind_bnd. repeat case_match; done. Qed.

Lemma einsum_btds_dcs_btdc_not_assertion x y :
  einsum_btds_dcs_btdc x y ≠ Raise AssertionError.
Proof. unfold einsum_btds_dcs_btdc. repeat case_match; done. Qed.

Lemma einsum_bnd_ncd_bnc_not_assertion x y :
  einsum_bnd_ncd_bnc x y ≠ Raise AssertionError.
Proof. unfold einsum_bnd_ncd_bnc. repeat case_match; done. Qed.

Lemma prod_dim_m2_not_assertion x : prod_dim_m2 x ≠ Raise AssertionError.
Proof. unfold prod_dim_m2. repeat case_match; done. Qed.

Lemma forward_2d_never_asserts self x : never_asserts (forward_2d self x).
Proof.
  unfold forward_2d, forward_feature_values, forward_response_weights.
  repeat first
    [ apply never_asserts_bind; [|intros ?]
    | apply never_asserts_read
    | apply never_asserts_ret
    | apply never_asserts_lift
    | apply view_not_assertion
    | apply flatten_1_2_not_assertion
    | apply broadcast_not_assertion
    | apply stack_last_not_assertion
    | apply einsum_bi_ind_bnd_not_assertion
    | apply einsum_btds_dcs_btdc_not_assertion
    | apply einsum_bnd_ncd_bnc_not_assertion
    | apply prod_dim_m2_not_assertion
    | case_match ].
Qed.

End assertion.

Section effects.

Lemma read_only_bind {A B} (m : M A) (f : A → M B) :
  read_only m → (∀ a, read_only (f a)) → read_only (m ≫= f).
Proof.
  intros Hm Hf w. unfold mbind, M_bind. specialize (Hm w).
  destruct (m w) as [[a|e] w']; simpl in *; subst w'; [apply Hf | done].
Qed.

Lemma read_only_read l : read_only (read l).
Proof. by intros w. Qed.

Lemma read_only_ret {A} (a : A) : read_only (mret a).
Proof. by intros w. Qed.

Lemma read_only_lift {A} (r : result A) : read_only (lift r).
Proof. by intros w. Qed.

Lemma read_only_raise {A} e : read_only (raise (A := A) e).
Proof. by intros w. Qed.

Ltac read_only_steps :=
  repeat first
    [ apply read_only_bind; [|intros ?]
    | apply read_only_read
    | apply read_only_ret
    | apply read_only_lift
    | apply read_only_raise
    | case_match ].

Lemma forward_2d_read_only self x : read_only (forward_2d self x).
Proof.
  unfold forward_2d, forward_feature_values, forward_response_weights.
  read_only_steps.
Qed.

Lemma forward_read_only self input : read_only (forward self input).
Proof.
  unfold forward. read_only_steps; apply forward_2d_read_only.
Qed.

Lemma read_only_writes_within {A} (m : M A) ls :
  read_only m → writes_within ls m.
Proof. intros Hm w. rewrite (Hm w). done. Qed.

Lemma writes_within_bind {A B} ls (m : M A) (f : A → M B) :
  writes_within ls m → (∀ a, writes_within ls (f a)) → writes_within ls (m ≫= f).
Proof.
  intros Hm Hf w. unfold mbind, M_bind. specialize (Hm w).
  destruct (m w) as [[a|e] w']; simpl in *; [|done].
  destruct Hm as [Hlen Hm]. destruct (Hf a w') as [Hlen' Hf'].
  split; [congruence|]. intros l Hl. rewrite Hf' by done. by apply Hm.
Qed.

Lemma writes_within_assign_data ls p v :
  p ∈ ls → writes_within ls (assign_data p v).
Proof.
  intros Hp w. unfold assign_data. case_decide; simpl; [|done].
  split; [by rewrite length_insert|].
  intros l Hl. apply list_lookup_insert_ne. intros ->. done.
Qed.

Lemma writes_within_warn ls msg : writes_within ls (warn msg).
Proof. by intros w. Qed.

Lemma writes_within_np_random_beta ls a b size :
  writes_within ls (np_random_beta a b size).
Proof. intros w. unfold np_random_beta. by case_decide. Qed.

Lemma initialize_writes_within self input eps :
  writes_within [feature_thresholds self; log_temperatures self]
    (initialize self input eps).
Proof.
  unfold initialize.
  repeat first
    [ apply writes_within_bind; [|intros ?]
    | apply writes_within_assign_data; solve [repeat constructor]
    | apply writes_within_warn
    | apply writes_within_np_random_beta
    | apply read_only_writes_within; read_only_steps; fail
    | case_match ].
Qed.

End effects.

Section routing_codes.

Example routing_bit_of_leaf_2 :
  routing_bit 0 2 = 0%Z ∧ routing_bit 1 2 = 1%Z ∧ routing_bit 2 2 = 0%Z.
Proof. done. Qed.

Lemma routing_bit_01 l c : routing_bit l c = 0%Z ∨ routing_bit l c = 1%Z.
Proof.
  unfold routing_bit.
  pose proof (Z.mod_pos_bound (Z.of_nat c `div` 2 ^ Z.of_nat l) 2). lia.
Qed.

Lemma pow2_Z D : Z.of_nat (2 ^ D) = (2 ^ Z.of_nat D)%Z.
Proof. by rewrite Nat2Z.inj_pow. Qed.

Lemma routing_bit_testbit l c :
  routing_bit l c = Z.b2z (Z.testbit (Z.of_nat c) (Z.of_nat l)).
Proof. unfold routing_bit. symmetry. apply Z.testbit_spec'. lia. Qed.

(** Leaves with the same bit at every level are the same leaf. *)
Lemma routing_bit_inj D c c' :
  c < 2 ^ D → c' < 2 ^ D →
  (∀ l, l < D → routing_bit l c = routing_bit l c') → c = c'.
Proof.
  intros Hc Hc' Hbits. apply Nat2Z.inj. apply Z.bits_inj'. intros n Hn.
  destruct (decide (n < Z.of_nat D)%Z) as [Hlt|Hge].
  - specialize (Hbits (Z.to_nat n)). rewrite !routing_bit_testbit in Hbits.
    rewrite Z2Nat.id in Hbits by done.
    apply Z.b2z_inj, Hbits. lia.
  - assert (Hhigh : ∀ a, a < 2 ^ D → Z.testbit (Z.of_nat a) n = false).
    { intros a Ha. destruct (decide (a = 0)) as [->|Hne]; [apply Z.bits_0|].
      apply Z.bits_above_log2; [lia|].
      assert (Z.log2 (Z.of_nat a) < Z.of_nat D)%Z; [|lia].
      apply Z.log2_lt_pow2; [lia|].
      rewrite <- pow2_Z. lia. }
    by rewrite !Hhigh.
Qed.

(** The bits of the two leaves that extend leaf [c] by one level. *)
Lemma routing_bit_low D l c b :
  l < D → c < 2 ^ D → routing_bit l (c + b * 2 ^ D) = routing_bit l c.
Proof.
  intros Hl Hc. unfold routing_bit.
  rewrite Nat2Z.inj_add, Nat2Z.inj_mul, pow2_Z.
  replace (Z.of_nat D) with (Z.of_nat l + Z.succ (Z.of_nat (D - l - 1)))%Z by lia.
  rewrite Z.pow_add_r, Z.pow_succ_r by lia.
  replace (Z.of_nat b * (2 ^ Z.of_nat l * (2 * 2 ^ Z.of_nat (D - l - 1))))%Z
    with (Z.of_nat b * 2 ^ Z.of_nat (D - l - 1) * 2 * 2 ^ Z.of_nat l)%Z by ring.
  rewrite Z.div_add by lia.
  by rewrite Z.mod_add by lia.
Qed.

Lemma routing_bit_high D c b :
  c < 2 ^ D → b < 2 → routing_bit D (c + b * 2 ^ D) = Z.of_nat b.
Proof.
  intros Hc Hb. unfold routing_bit.
  rewrite Nat2Z.inj_add, Nat2Z.inj_mul, pow2_Z.
  rewrite Z.div_add by lia.
  rewrite Z.div_small; [|split; [lia|rewrite <- pow2_Z; lia]].
  rewrite Z.add_0_l. apply Z.mod_small. lia.
Qed.

Lemma make_bin_codes_1hot_spec D :
  ∃ t, make_bin_codes_1hot D = Ok t
       ∧ shape t = [D; 2 ^ D; 2]
       ∧ wf_tensor t
       ∧ ∀ l c, l < D → c < 2 ^ D →
           get t [l; c; 0] = Fin (IZR (routing_bit l c))
           ∧ get t [l; c; 1] = Fin (IZR (1 - routing_bit l c)).
Proof.
  unfold make_bin_codes_1hot.
  set (codes := build _ _).
  destruct (stack_last_spec codes (tmap (fsub (Fin 1)) codes) eq_refl)
    as (t & Ht & Hts & Htwf & Htg).
  exists t. split; [done|]. split; [done|]. split; [done|].
  intros l c Hl Hc.
  assert (Hin : in_bounds [D; 2 ^ D] [l; c]) by (by apply in_bounds_2).
  destruct (Htg [l; c] Hin) as [H0 H1]. simpl in H0, H1.
  assert (Hcode : get codes [l; c] = Fin (IZR (routing_bit l c))).
  { unfold codes. rewrite get_build by done. unfold routing_bit.
    by rewrite !lookup_total_fmap_seq by lia. }
  split; [by rewrite H0|].
  rewrite H1, get_tmap; [|apply build_wf|done].
  rewrite Hcode. simpl. f_equal. rewrite minus_IZR. lra.
Qed.

End routing_codes.

Section construction.

Lemma torch_full_wf size v : wf_tensor (torch_full size v).
Proof. unfold wf_tensor, torch_full. simpl. apply length_replicate. Qed.

Lemma init_in_place_wf f t : wf_tensor t → wf_tensor (init_in_place f t).
Proof.
  unfold wf_tensor, init_in_place. simpl. intros <-.
  by rewrite length_fmap, length_seq.
Qed.

(** The constructor succeeds in every world: it allocates the five tensors
    after the objects that already exist, and leaves a well-formed layer. *)
Lemma init_run in_features T D K fl ch bn ir il beta cutoff w :
  ∃ self codes,
    __init__ in_features T D K fl ch bn ir il beta cutoff w
    = (Ok self,
       World (heap w ++ [init_in_place ir (torch_zeros [T; K; 2 ^ D]);
                         init_in_place il (torch_zeros [in_features; T; D]);
                         torch_full [T; D] NaN; torch_full [T; D] NaN; codes])
             (rng w) (warnings w))
    ∧ make_bin_codes_1hot D = Ok codes
    ∧ self = {| depth := D; num_trees := T; tree_dim := K; flatten_output := fl;
                choice_function := ch; bin_function := bn;
                threshold_init_beta := beta; threshold_init_cutoff := cutoff;
                response := length (heap w);
                feature_selection_logits := length (heap w) + 1;
                feature_thresholds := length (heap w) + 2;
                log_temperatures := length (heap w) + 3;
                bin_codes_1hot := length (heap w) + 4 |}.
Proof.
  destruct (make_bin_codes_1hot_spec D) as (codes & Hcodes & _).
  eexists _, codes. split; [|split; [done|reflexivity]].
  unfold __init__, mbind, M_bind, alloc, lift, mret, M_ret. simpl.
  rewrite Hcodes. simpl. rewrite !length_app. simpl.
  rewrite <- !app_assoc. simpl.
  replace (length (heap w) + 1 + 1 + 1 + 1) with (length (heap w) + 4) by lia.
  replace (length (heap w) + 1 + 1 + 1) with (length (heap w) + 3) by lia.
  replace (length (heap w) + 1 + 1) with (length (heap w) + 2) by lia.
  done.
Qed.

Lemma lookup_total_app_at {A} `{Inhabited A} (l1 l2 : list A) k t :
  l2 !! k = Some t → (l1 ++ l2) !!! (length l1 + k) = t.
Proof.
  intros Hk. apply list_lookup_total_correct.
  rewrite lookup_app_r by lia. by replace (length l1 + k - length l1) with k by lia.
Qed.

Lemma lookup_total_app_first {A} `{Inhabited A} (l1 l2 : list A) t :
  l2 !! 0 = Some t → (l1 ++ l2) !!! length l1 = t.
Proof.
  intros Hk. rewrite <- (Nat.add_0_r (length l1)). by apply lookup_total_app_at.
Qed.

Lemma init_layer_ok in_features T D K fl ch bn ir il beta cutoff w self w' :
  __init__ in_features T D K fl ch bn ir il beta cutoff w = (Ok self, w') →
  layer_ok self w' in_features.
Proof.
  destruct (init_run in_features T D K fl ch bn ir il beta cutoff w)
    as (self0 & codes & Hrun & Hcodes & Hself).
  rewrite Hrun. intros [= <- <-]. subst self0.
  split; simpl;
    repeat match goal with
    | |- context [(?l1 ++ ?l2) !!! (length ?l1 + ?k)] =>
        erewrite (lookup_total_app_at l1 l2 k) by reflexivity
    | |- context [(?l1 ++ ?l2) !!! length ?l1] =>
        erewrite (lookup_total_app_first l1 l2) by reflexivity
    end;
    try done;
    try (apply init_in_place_wf, torch_full_wf);
    try apply torch_full_wf.
  - repeat (apply NoDup_cons; split; [rewrite ?elem_of_cons, elem_of_nil; lia|]).
    apply NoDup_nil_2.
  - rewrite length_app. simpl. repeat (constructor; [lia|]). constructor.
Qed.

End construction.

Section initializer_steps.

Lemma numel_2 a b : numel [a; b] = a * b.
Proof. unfold numel. simpl. lia. Qed.

Lemma sequence_fmap_Ok {A B} (f : A → B) (l : list A) :
  sequence ((λ a, Ok (f a)) <$> l) = Ok (f <$> l).
Proof.
  induction l as [|a l IH]; [done|].
  rewrite !fmap_cons. cbn [sequence]. by rewrite IH.
Qed.

Lemma zip_with_fmap_seq {A B C} (f : A → B → C) (g : nat → A) (h : nat → B) n :
  zip_with f (g <$> seq 0 n) (h <$> seq 0 n) = (λ i, f (g i) (h i)) <$> seq 0 n.
Proof.
  generalize 0. induction n as [|n IH]; intros k; [done|].
  simpl. by rewrite IH.
Qed.

Lemma run_assign_data {B} p v (f : unit → M B) w :
  shape v = shape (heap w !!! p) →
  (assign_data p v ≫= f) w
  = f () (World (<[p := v]> (heap w)) (rng w) (warnings w)).
Proof.
  intros Hs. unfold mbind, M_bind, assign_data.
  rewrite decide_True by done. rewrite <- Hs. by destruct v.
Qed.

Lemma offset_flat_3 B T D b t l :
  offset [B; T * D] [b; t * D + l] = offset [B; T; D] [b; t; l].
Proof. unfold offset, numel. simpl. lia. Qed.

(** Lines 172-182: the percentiles of the columns of the feature values. *)
Lemma column_percentiles fv B T D (q : nat → R) :
  shape fv = [B; T; D] → wf_tensor fv → 1 ≤ B →
  (∀ j, j < T * D → (0 <= q j <= 100)%R) →
  ∃ cols,
    flatten_1_2 fv ≫= transpose = Ok cols
    ∧ sequence (zip_with np_percentile (rows (check_numpy cols))
                  ((λ j, Fin (q j)) <$> seq 0 (T * D)))
      = Ok ((λ j, percentile_linear ((λ b, get cols [j; b]) <$> seq 0 B) (q j))
              <$> seq 0 (T * D))
    ∧ ∀ b t l, b < B → t < T → l < D →
        get cols [t * D + l; b] = get fv [b; t; l].
Proof.
  intros Hfv Hwf HB Hq.
  unfold flatten_1_2. rewrite Hfv. unfold mbind, result_bind, transpose.
  cbn [shape]. eexists. split; [done|]. split.
  - unfold rows, check_numpy. rewrite shape_build.
    rewrite zip_with_fmap_seq.
    rewrite <- (sequence_fmap_Ok
      (λ j, percentile_linear
              ((λ b, get (build [T * D; B] _) [j; b]) <$> seq 0 B) (q j))).
    f_equal. apply fmap_seq_ext. intros j Hj. unfold np_percentile.
    rewrite decide_True by (by apply Hq).
    destruct B as [|B']; [lia|]. reflexivity.
  - intros b t l Hb Ht Hl.
    rewrite get_build; last first.
    { apply in_bounds_2; [|done].
      apply Nat.lt_le_trans with (t * D + D); [lia|].
      replace (t * D + D) with (S t * D) by lia.
      apply Nat.mul_le_mono_r. lia. }
    apply (get_reshape [B; T * D] fv [b; t * D + l] [b; t; l]).
    rewrite Hfv. apply offset_flat_3.
Qed.

Lemma view_exact t a b :
  numel (shape t) = a * b →
  view t [Z.of_nat a; Z.of_nat b] = Ok (Tensor [a; b] (data t)).
Proof.
  intros Hn. unfold view.
  rewrite bool_decide_eq_false_2; last first.
  { rewrite !Exists_cons, Exists_nil. lia. }
  rewrite !filter_cons, filter_nil.
  rewrite (decide_True (P := (Z.of_nat a ≠ -1)%Z)) by lia.
  rewrite (decide_True (P := (Z.of_nat b ≠ -1)%Z)) by lia.
  rewrite (decide_False (P := (Z.of_nat a = -1)%Z)) by lia.
  rewrite (decide_False (P := (Z.of_nat b = -1)%Z)) by lia.
  simpl length. cbv iota. simpl foldr.
  rewrite decide_True by lia.
  simpl. by rewrite !Nat2Z.id.
Qed.

Lemma np_percentile_axis0_spec a B T D r :
  shape a = [B; T; D] → 1 ≤ B → (0 <= r <= 100)%R →
  ∃ p, np_percentile_axis0 a (Fin r) = Ok p
       ∧ shape p = [T; D] ∧ wf_tensor p
       ∧ ∀ t l, t < T → l < D →
           get p [t; l] = percentile_linear ((λ b, get a [b; t; l]) <$> seq 0 B) r.
Proof.
  intros Ha HB Hr. unfold np_percentile_axis0. rewrite Ha.
  rewrite decide_True by done. destruct B as [|B']; [lia|].
  eexists. split; [done|].
  split; [done|]. split; [apply build_wf|].
  intros t l Ht Hl. by rewrite get_build by (by apply in_bounds_2).
Qed.

End initializer_steps.

Section initialize_runs.

Context (self : ODST) (w : world) (in_features : nat).
Hypothesis Hok : layer_ok self w in_features.
Hypothesis Hsel : selectors_ok self w in_features.

Lemma run_np_random_beta {B} a b size (f : tensor → M B) w0 :
  (0 < a)%R → (0 < b)%R →
  (np_random_beta a b size ≫= f) w0
  = f (Tensor size ((λ i, Fin (rng w0 i)) <$> seq 0 (numel size)))
      (World (heap w0) (λ i, rng w0 (numel size + i)) (warnings w0)).
Proof.
  intros Ha Hb. unfold mbind, M_bind, np_random_beta.
  by rewrite decide_True by done.
Qed.

Lemma thresholds_allocated : feature_thresholds self < length (heap w).
Proof.
  pose proof (ok_allocated _ _ _ Hok) as Ha.
  rewrite !Forall_cons in Ha. tauto.
Qed.

Lemma temperatures_allocated : log_temperatures self < length (heap w).
Proof.
  pose proof (ok_allocated _ _ _ Hok) as Ha.
  rewrite !Forall_cons in Ha. tauto.
Qed.

Lemma thresholds_not_temperatures :
  feature_thresholds self ≠ log_temperatures self.
Proof.
  pose proof (ok_distinct _ _ _ Hok) as Hd.
  rewrite !NoDup_cons, !elem_of_cons in Hd. intros Heq. tauto.
Qed.

(** The run of [initialize] on a sample of [B] rows. *)
Lemma initialize_run input eps B :
  shape (heap w !!! input) = [B; in_features] →
  1 ≤ B →
  (0 < threshold_init_beta self)%R →
  (∀ j, j < num_trees self * depth self → (0 <= rng w j <= 1)%R) →
  (0 <= threshold_init_cutoff self)%R →
  ∃ fv th lt w',
    initialize self input eps w = (Ok (), w')
    ∧ forward_feature_values self (heap w !!! input) w = (Ok fv, w)
    ∧ shape fv = [B; num_trees self; depth self]
    ∧ wf_tensor fv
    ∧ heap w' = <[log_temperatures self := lt]>
                  (<[feature_thresholds self := th]> (heap w))
    ∧ shape th = [num_trees self; depth self] ∧ wf_tensor th
    ∧ shape lt = [num_trees self; depth self] ∧ wf_tensor lt
    ∧ (∀ t l, t < num_trees self → l < depth self →
         get th [t; l]
         = percentile_linear (column fv B t l)
             (100 * rng w (t * depth self + l)))
    ∧ (∀ t l, t < num_trees self → l < depth self →
         get lt [t; l]
         = flog (fadd
                   (fdiv (percentile_linear (deviation_column fv th B t l)
                            (100 * Rmin 1 (threshold_init_cutoff self)))
                         (Fin (Rmax 1 (threshold_init_cutoff self))))
                   (Fin eps))).
Proof.
  intros Hx HB Hbeta Hdraws Hcut.
  set (T := num_trees self) in *. set (D := depth self) in *.
  set (x := heap w !!! input) in *.
  destruct (forward_feature_values_run self w in_features x B Hsel Hx)
    as (fv & Hfvrun & Hfvs & Hfvwf & _).
  assert (Heinsum : einsum_bi_ind_bnd x (selectors self w) = Ok fv).
  { unfold forward_feature_values in Hfvrun. rewrite run_read in Hfvrun.
    unfold lift in Hfvrun. by inversion Hfvrun. }
  destruct (column_percentiles fv B T D (λ j, 100 * rng w j)%R Hfvs Hfvwf HB)
    as (cols & Hcols & Hpct & Hcolsg).
  { intros j Hj. specialize (Hdraws j Hj). lra. }
  set (ps := (λ j, percentile_linear ((λ b, get cols [j; b]) <$> seq 0 B)
                     (100 * rng w j)) <$> seq 0 (T * D)) in *.
  set (th := Tensor [T; D] ps).
  assert (Hthwf : wf_tensor th).
  { unfold wf_tensor, th, ps. cbn [shape data].
    by rewrite length_fmap, length_seq, numel_2. }
  assert (Hthg : ∀ t l, t < T → l < D →
            get th [t; l] = percentile_linear (column fv B t l)
                              (100 * rng w (t * D + l))).
  { intros t l Ht Hl. unfold get, th. cbn [shape data].
    assert (Hj : t * D + l < T * D).
    { apply Nat.lt_le_trans with (t * D + D); [lia|].
      replace (t * D + D) with (S t * D) by lia.
      apply Nat.mul_le_mono_r. lia. }
    replace (offset [T; D] [t; l]) with (t * D + l)
      by (unfold offset, numel; simpl; lia).
    unfold ps. rewrite lookup_total_fmap_seq by done.
    f_equal. unfold column. apply fmap_seq_ext. intros b Hb. by apply Hcolsg. }
  destruct (broadcast_spec fsub fv th [B]) as (dev & Hdev & Hdevs & Hdevwf & Hdevg);
    [by rewrite Hfvs|].
  destruct (np_percentile_axis0_spec (check_numpy (tmap fabs dev)) B T D
              (100 * Rmin 1 (threshold_init_cutoff self)))
    as (tp & Htp & Htps & Htpwf & Htpg).
  { unfold check_numpy. by shapes. }
  { done. }
  { unfold Rmin. case_match; lra. }
  set (lt := tmap flog (tmap (λ v, fadd v (Fin eps))
               (tmap (λ v, fdiv v (Fin (Rmax 1 (threshold_init_cutoff self)))) tp))).
  set (w1 := if decide (B < 1000)
             then World (heap w) (rng w) (warnings w ++ [small_sample_warning])
             else w).
  assert (Hw1 : heap w1 = heap w ∧ rng w1 = rng w)
    by (unfold w1; by case_decide).
  destruct Hw1 as [Hheap1 Hrng1].
  exists fv, th, lt,
    (World (<[log_temperatures self := lt]>
              (<[feature_thresholds self := th]> (heap w)))
           (λ i, rng w1 (numel [T; D] + i)) (warnings w1)).
  split; [|repeat split; try done].
  - unfold initialize. rewrite run_read. fold x.
    rewrite decide_True by (unfold ndim; by rewrite Hx).
    rewrite Hx. change ([B; in_features] !!! 0) with B.
    assert (Hwarn : ∀ k : unit → M unit,
              ((if decide (B < 1000) then warn small_sample_warning else mret ())
                 ≫= k) w = k () w1).
    { intros k. unfold w1. by case_decide. }
    rewrite Hwarn. rewrite run_read. rewrite Hheap1. fold (selectors self w).
    rewrite (run_lift _ _ _ _ Heinsum).
    rewrite run_np_random_beta by done.
    fold T D. cbv zeta.
    rewrite (run_lift _ _ _ _ Hcols).
    erewrite run_lift; last first.
    { unfold flatten, tmap. cbn [data]. rewrite numel_2, Hrng1.
      rewrite <- list_fmap_compose. exact Hpct. }
    fold ps.
    erewrite run_lift; last first.
    { apply view_exact. unfold torch_as_tensor. cbn [shape]. unfold numel, ps.
      simpl. rewrite length_fmap, length_seq. lia. }
    cbn [torch_as_tensor data]. fold th.
    rewrite run_assign_data; last first.
    { cbn [heap]. rewrite Hheap1. by rewrite (ok_thresholds _ _ _ Hok). }
    rewrite run_read. cbn [heap]. rewrite Hheap1.
    rewrite list_lookup_total_insert_eq by apply thresholds_allocated.
    rewrite (run_lift _ _ _ _ Hdev), (run_lift _ _ _ _ Htp).
    fold lt. unfold assign_data. cbn [heap rng warnings].
    rewrite list_lookup_total_insert_ne by apply thresholds_not_temperatures.
    rewrite decide_True; last first.
    { unfold lt. shapes. by rewrite (ok_temperatures _ _ _ Hok). }
    rewrite (ok_temperatures _ _ _ Hok). do 3 f_equal.
    unfold lt, tmap. cbn [shape data]. by rewrite Htps.
  - unfold lt. by repeat apply tmap_wf.
  - intros t l Ht Hl. unfold lt.
    assert (Hin : in_bounds [T; D] [t; l]) by (by apply in_bounds_2).
    rewrite get_tmap; [|by repeat apply tmap_wf|by shapes].
    rewrite get_tmap; [|by repeat apply tmap_wf|by shapes].
    rewrite get_tmap; [|done|by shapes].
    rewrite Htpg by done. do 3 f_equal. f_equal.
    unfold deviation_column. apply fmap_seq_ext. intros b Hb.
    unfold check_numpy.
    rewrite get_tmap; [|done|shapes; by apply in_bounds_3].
    rewrite Hdevg; [done|]. rewrite Hfvs. by apply in_bounds_3.
Qed.

End initialize_runs.

Section percentile_lemmas.

Lemma insert_sorted_Forall (P : fval → Prop) x l :
  P x → Forall P l → Forall P (insert_sorted x l).
Proof.
  intros Hx Hl. induction Hl as [|y l Hy Hl IH]; simpl.
  - by repeat constructor.
  - case_match; repeat constructor; done.
Qed.

Lemma length_insert_sorted x l : length (insert_sorted x l) = S (length l).
Proof.
  induction l as [|y l IH]; simpl; [done|]. case_match; simpl; by rewrite ?IH.
Qed.

Lemma np_sort_Forall (P : fval → Prop) l : Forall P l → Forall P (np_sort l).
Proof.
  induction 1 as [|x l Hx Hl IH]; simpl; [constructor|].
  by apply insert_sorted_Forall.
Qed.

Lemma length_np_sort l : length (np_sort l) = length l.
Proof.
  induction l as [|x l IH]; simpl; [done|].
  by rewrite length_insert_sorted, IH.
Qed.

Lemma insert_sorted_perm x l : insert_sorted x l ≡ₚ x :: l.
Proof.
  induction l as [|y l IH]; simpl; [done|].
  case_match; [done|]. rewrite IH. apply Permutation_swap.
Qed.

Lemma np_sort_perm l : np_sort l ≡ₚ l.
Proof.
  induction l as [|x l IH]; simpl; [done|].
  by rewrite insert_sorted_perm, IH.
Qed.

Lemma fle_total a b :
  is_nan a = false → is_nan b = false → fle a b = false → fle b a = true.
Proof.
  destruct a as [|[]|x], b as [|[]|y]; simpl; try done.
  intros _ _ Hxy. apply bool_decide_eq_false in Hxy.
  apply bool_decide_eq_true. lra.
Qed.

Lemma fle_trans a b c :
  is_nan b = false → fle a b = true → fle b c = true → fle a c = true.
Proof.
  destruct a as [|[]|x], b as [|[]|y], c as [|[]|z]; simpl; try done.
  intros _ Hxy%bool_decide_eq_true Hyz%bool_decide_eq_true.
  apply bool_decide_eq_true. lra.
Qed.

Lemma insert_sorted_sorted x l :
  is_nan x = false → Forall (λ v, is_nan v = false) l →
  StronglySorted (λ a b, fle a b = true) l →
  StronglySorted (λ a b, fle a b = true) (insert_sorted x l).
Proof.
  intros Hx Hl Hs. induction Hs as [|y l Hs IH Hy]; simpl.
  - repeat constructor.
  - apply Forall_cons in Hl as [Hyn Hl].
    destruct (fle x y) eqn:Hxy.
    + constructor; [by constructor|]. constructor; [done|].
      eapply Forall_impl; [exact Hy|]. intros z Hz. by eapply fle_trans.
    + constructor; [by apply IH|].
      rewrite insert_sorted_perm. constructor; [|done].
      by apply fle_total.
Qed.

Lemma np_sort_sorted l :
  Forall (λ v, is_nan v = false) l →
  StronglySorted (λ a b, fle a b = true) (np_sort l).
Proof.
  induction 1 as [|x l Hx Hl IH]; simpl; [constructor|].
  apply insert_sorted_sorted; [done| |done].
  by rewrite np_sort_perm.
Qed.

Example np_sort_example :
  np_sort [Fin 3; Fin 1; Fin 2] = [Fin 1; Fin 2; Fin 3].
Proof.
  unfold np_sort. simpl.
  repeat (first [ rewrite bool_decide_eq_true_2 by lra
                | rewrite bool_decide_eq_false_2 by lra ]; simpl).
  done.
Qed.

Example percentile_linear_example :
  percentile_linear [Fin 3; Fin 1; Fin 2] 25 = Fin (3 / 2).
Proof.
  unfold percentile_linear. cbn [existsb is_nan orb].
  rewrite np_sort_example. cbn [length Nat.sub INR].
  assert (Hf : Zfloor (25 / 100 * (1 + 1)) = 0%Z).
  { apply Zfloor_eq. simpl. lra. }
  rewrite Hf. simpl. f_equal. lra.
Qed.

Lemma Forall_lookup_total_lt {A} `{Inhabited A} (P : A → Prop) (l : list A) i :
  Forall P l → i < length l → P (l !!! i).
Proof.
  intros Hl Hi. destruct (lookup_lt_is_Some_2 _ _ Hi) as [x Hx].
  rewrite (list_lookup_total_correct _ _ _ Hx).
  by eapply Forall_lookup_1.
Qed.

(** A percentile of a non-empty array stays within any class of values
    that excludes NaN and is closed under interpolation. *)
Lemma percentile_linear_closed (P : fval → Prop) a q :
  (∀ v, P v → is_nan v = false) →
  (∀ u v g, P u → P v → (0 <= g < 1)%R →
     P (fadd u (fmul (fsub v u) (Fin g)))) →
  a ≠ [] → Forall P a → (0 <= q <= 100)%R →
  P (percentile_linear a q).
Proof.
  intros Hnan Hlerp Hne Ha Hq. unfold percentile_linear.
  assert (existsb is_nan a = false) as ->.
  { clear -Ha Hnan. induction Ha as [|v a Hv Ha IH]; simpl; [done|].
    by rewrite (Hnan v Hv), IH. }
  set (n := length a).
  assert (Hn : 1 ≤ n) by (unfold n; destruct a; [done|simpl; lia]).
  assert (Harr : Forall P (np_sort a)) by (by apply np_sort_Forall).
  assert (Hlen : length (np_sort a) = n) by apply length_np_sort.
  set (index := (q / 100 * INR (n - 1))%R).
  assert (Hi0 : (0 <= index)%R).
  { unfold index. apply Rmult_le_pos; [lra | apply pos_INR]. }
  assert (Hi1 : (index <= INR (n - 1))%R).
  { unfold index. pose proof (pos_INR (n - 1)). nra. }
  pose proof (Zfloor_bound index) as [Hlo Hhi].
  assert (Hf0 : (0 ≤ Zfloor index)%Z) by (by apply Zfloor_lub).
  assert (Hf1 : (Zfloor index ≤ Z.of_nat (n - 1))%Z).
  { apply le_IZR. rewrite <- INR_IZR_INZ. lra. }
  cbv zeta. apply Hlerp.
  - apply Forall_lookup_total_lt; [done|lia].
  - apply Forall_lookup_total_lt; [done|lia].
  - lra.
Qed.

Lemma percentile_linear_finite a q :
  a ≠ [] → Forall finite a → (0 <= q <= 100)%R →
  finite (percentile_linear a q).
Proof.
  apply percentile_linear_closed.
  - by intros v [r ->].
  - intros u v g [r ->] [r' ->] _. by eexists.
Qed.

Lemma percentile_linear_nonneg a q :
  a ≠ [] → Forall nonneg a → (0 <= q <= 100)%R →
  nonneg (percentile_linear a q).
Proof.
  apply percentile_linear_closed.
  - by intros v (r & -> & _).
  - intros u v g (r & -> & Hr) (r' & -> & Hr') Hg.
    eexists. split; [done|]. nra.
Qed.

End percentile_lemmas.

Section reference_lemmas.

Lemma Rsum_app l1 l2 : Rsum (l1 ++ l2) = (Rsum l1 + Rsum l2)%R.
Proof.
  unfold Rsum. induction l1 as [|a l1 IH]; simpl; [lra|]. rewrite IH. lra.
Qed.

Lemma Rprod_app l1 l2 : Rprod (l1 ++ l2) = (Rprod l1 * Rprod l2)%R.
Proof.
  unfold Rprod. induction l1 as [|a l1 IH]; simpl; [lra|]. rewrite IH. lra.
Qed.


Lemma Rsum_scale (f : nat → R) k l :
  Rsum ((λ c, f c * k)%R <$> l) = (Rsum (f <$> l) * k)%R.
Proof.
  unfold Rsum. induction l as [|a l IH]; [simpl; lra|].
  rewrite !fmap_cons. cbn [foldr]. rewrite IH. lra.
Qed.

(** Summing, over all leaves, the product over levels of the component
    chosen by the leaf's bit gives the product of the per-level totals. *)
Lemma sum_over_leaves (p q : nat → R) D :
  Rsum ((λ c, Rprod ((λ l, if decide (routing_bit l c = 1%Z) then p l else q l)
                       <$> seq 0 D))
          <$> seq 0 (2 ^ D))
  = Rprod ((λ l, p l + q l)%R <$> seq 0 D).
Proof.
  induction D as [|D IH]; [simpl; lra|].
  assert (HR : Rprod ((λ l, p l + q l)%R <$> seq 0 (S D))
               = (Rprod ((λ l, p l + q l)%R <$> seq 0 D) * (p D + q D))%R).
  { rewrite seq_S, fmap_app, Rprod_app.
    cbn [fmap list_fmap Rprod foldr Nat.add]. lra. }
  assert (HL : seq 0 (2 ^ S D) = seq (0 * 2 ^ D) (2 ^ D) ++ seq (1 * 2 ^ D) (2 ^ D)).
  { replace (2 ^ S D) with (2 ^ D + 2 ^ D) by (simpl; lia).
    rewrite seq_app. do 2 f_equal. lia. }
  assert (Hhalf : ∀ b, b < 2 →
            (λ c, Rprod ((λ l, if decide (routing_bit l c = 1%Z) then p l else q l)
                           <$> seq 0 (S D)))
              <$> seq (b * 2 ^ D) (2 ^ D)
            = (λ c, Rprod ((λ l, if decide (routing_bit l c = 1%Z) then p l else q l)
                             <$> seq 0 D)
                    * (if decide (b = 1%nat) then p D else q D))%R
                <$> seq 0 (2 ^ D)).
  { intros b Hb. apply list_eq. intros i. rewrite !list_lookup_fmap.
    destruct (decide (i < 2 ^ D)) as [Hi|Hi].
    - rewrite !lookup_seq_lt by done.
      cbn [fmap option_fmap option_map]. f_equal.
      rewrite seq_S, fmap_app, Rprod_app, Nat.add_0_l.
      replace (b * 2 ^ D + i) with (i + b * 2 ^ D) by lia. f_equal.
      + f_equal. apply fmap_seq_ext. intros l Hl.
        by rewrite routing_bit_low.
      + cbn [fmap list_fmap Rprod foldr Nat.add].
        rewrite routing_bit_high by done.
        destruct b as [|[|b]]; [| |lia]; simpl; lra.
    - by rewrite !lookup_seq_ge by lia. }
  rewrite HR, HL, fmap_app, Rsum_app, !Hhalf, !Rsum_scale, IH by lia.
  rewrite decide_False, decide_True by lia. lra.
Qed.

End reference_lemmas.

Section forward_on_finite_values.

Lemma fsum_seq_Fin (f : nat → fval) (g : nat → R) n :
  (∀ i, i < n → f i = Fin (g i)) →
  fsum (f <$> seq 0 n) = Fin (Rsum (g <$> seq 0 n)).
Proof.
  intros Hfg. rewrite (fmap_seq_ext f (λ i, Fin (g i)) n Hfg).
  rewrite fsum_finite.
  - by rewrite <- list_fmap_compose.
  - apply Forall_fmap, Forall_forall. intros i _. by eexists.
Qed.


Lemma get_Fin t idx :
  wf_tensor t → all_finite t → in_bounds (shape t) idx →
  get t idx = Fin (rval (get t idx)).
Proof.
  intros Hwf Hfin Hb. by destruct (get_finite t idx Hwf Hfin Hb) as [r ->].
Qed.

Context (self : ODST) (w : world) (in_features : nat) (x : tensor) (B : nat).
Hypothesis Hok : layer_ok self w in_features.
Hypothesis Hsel : selectors_ok self w in_features.
Hypothesis Hx : shape x = [B; in_features].
Hypothesis Hxwf : wf_tensor x.
Hypothesis Hxfin : all_finite x.
Hypothesis Hfin : parameters_finite self w.
Hypothesis Hbin : ∀ r, finite (bin_function self (Fin r)).






End forward_on_finite_values.

Section initialize_results.

Context (self : ODST) (w : world) (in_features : nat).
Hypothesis Hok : layer_ok self w in_features.
Hypothesis Hsel : selectors_ok self w in_features.

(** What [initialize] leaves behind, read from the world it returns. *)
Lemma initialize_result input eps B :
  shape (heap w !!! input) = [B; in_features] →
  1 ≤ B →
  (0 < threshold_init_beta self)%R →
  (∀ j, j < num_trees self * depth self → (0 <= rng w j <= 1)%R) →
  (0 <= threshold_init_cutoff self)%R →
  ∃ fv w',
    initialize self input eps w = (Ok (), w')
    ∧ forward_feature_values self (heap w !!! input) w = (Ok fv, w)
    ∧ layer_ok self w' in_features
    ∧ selectors self w' = selectors self w
    ∧ heap w' !!! response self = heap w !!! response self
    ∧ (∀ t l, t < num_trees self → l < depth self →
         get (heap w' !!! feature_thresholds self) [t; l]
         = percentile_linear (column fv B t l)
             (100 * rng w (t * depth self + l)))
    ∧ (∀ t l, t < num_trees self → l < depth self →
         get (heap w' !!! log_temperatures self) [t; l]
         = flog (fadd
                   (fdiv (percentile_linear
                            (deviation_column fv
                               (heap w' !!! feature_thresholds self) B t l)
                            (100 * Rmin 1 (threshold_init_cutoff self)))
                         (Fin (Rmax 1 (threshold_init_cutoff self))))
                   (Fin eps))).
Proof.
  intros Hx HB Hbeta Hdraws Hcut.
  destruct (initialize_run self w in_features Hok Hsel input eps B
              Hx HB Hbeta Hdraws Hcut)
    as (fv & th & lt & w' & Hrun & Hfv & Hfvs & Hfvwf & Hheap
        & Hths & Hthwf & Hlts & Hltwf & Hthg & Hltg).
  pose proof (ok_distinct _ _ _ Hok) as Hd.
  rewrite !NoDup_cons, !elem_of_cons, elem_of_nil in Hd.
  pose proof (thresholds_not_temperatures self w in_features Hok) as Hne.
  pose proof (thresholds_allocated self w in_features Hok) as Hath.
  pose proof (temperatures_allocated self w in_features Hok) as Halt.
  assert (Hother : ∀ l, l ≠ feature_thresholds self → l ≠ log_temperatures self →
            heap w' !!! l = heap w !!! l).
  { intros l H1 H2. rewrite Hheap.
    by rewrite !list_lookup_total_insert_ne by done. }
  assert (Hth : heap w' !!! feature_thresholds self = th).
  { rewrite Hheap. rewrite list_lookup_total_insert_ne by done.
    by apply list_lookup_total_insert_eq. }
  assert (Hlt : heap w' !!! log_temperatures self = lt).
  { rewrite Hheap. apply list_lookup_total_insert_eq.
    by rewrite length_insert. }
  assert (Hr : response self ≠ feature_thresholds self
               ∧ response self ≠ log_temperatures self) by tauto.
  assert (Hl : feature_selection_logits self ≠ feature_thresholds self
               ∧ feature_selection_logits self ≠ log_temperatures self) by tauto.
  assert (Hc : bin_codes_1hot self ≠ feature_thresholds self
               ∧ bin_codes_1hot self ≠ log_temperatures self).
  { split; intros Heq; rewrite Heq in Hd; tauto. }
  exists fv, w'. split; [done|]. split; [done|].
  split; [|split; [|split; [|split]]].
  - split; rewrite ?Hth, ?Hlt, ?Hother by tauto; try done; try apply Hok.
    rewrite Hheap, !length_insert. apply Hok.
  - unfold selectors. by rewrite Hother by tauto.
  - apply Hother; tauto.
  - rewrite Hth. apply Hthg.
  - rewrite Hth, Hlt. apply Hltg.
Qed.

End initialize_results.

Section initialized_values.

Lemma all_finite_2d t T D :
  shape t = [T; D] → wf_tensor t →
  (∀ i j, i < T → j < D → finite (get t [i; j])) → all_finite t.
Proof.
  intros Hs Hwf Hget. rewrite <- (build_get t Hwf).
  apply build_all_finite. rewrite Hs. intros idx Hidx.
  inversion Hidx as [|? i ? idx1 Hi H1]; subst.
  inversion H1 as [|? j ? idx2 Hj H2]; subst.
  inversion H2; subst. by apply Hget.
Qed.

Lemma finite_not_nan l : Forall finite l → Forall (λ v, is_nan v = false) l.
Proof. intros Hl. eapply Forall_impl; [exact Hl|]. by intros v [r ->]. Qed.

Context (self : ODST) (w w' : world) (in_features : nat) (x fv : tensor) (B : nat).
Hypothesis Hsel : selectors_ok self w in_features.
Hypothesis Hselfin : all_finite (selectors self w).
Hypothesis Hx : shape x = [B; in_features].
Hypothesis Hxwf : wf_tensor x.
Hypothesis Hxfin : all_finite x.
Hypothesis HB : 1 ≤ B.
Hypothesis Hfv : forward_feature_values self x w = (Ok fv, w).

Lemma feature_values_finite b t l :
  b < B → t < num_trees self → l < depth self → finite (get fv [b; t; l]).
Proof.
  intros Hb Ht Hl.
  destruct (forward_feature_values_run self w in_features x B Hsel Hx)
    as (fv' & Hfv' & _ & _ & Hget).
  rewrite Hfv in Hfv'. injection Hfv' as <-.
  rewrite Hget by done. destruct Hsel as [Hss Hswf].
  unfold feature_value. rewrite Hx. simpl default.
  erewrite fsum_seq_Fin; [by eexists|].
  intros i Hi. cbv beta.
  rewrite (get_Fin x) by (rewrite ?Hx; by try apply in_bounds_2).
  rewrite (get_Fin (selectors self w));
    [reflexivity|done|done|rewrite Hss; by apply in_bounds_3].
Qed.

(** A threshold set to a percentile of a non-empty finite column is
    finite. *)
Lemma threshold_finite t l q :
  t < num_trees self → l < depth self → (0 <= q <= 100)%R →
  finite (percentile_linear (column fv B t l) q).
Proof.
  intros Ht Hl Hq. apply percentile_linear_finite; [| |done].
  - unfold column. destruct B; [lia|done].
  - unfold column. apply Forall_fmap, Forall_forall.
    intros b Hb%elem_of_seq. simpl. apply feature_values_finite; lia.
Qed.

(** A log-temperature computed from finite deviations with a positive
    [eps] is finite. *)
Lemma temperature_finite th t l c eps :
  t < num_trees self → l < depth self →
  finite (get th [t; l]) → (0 <= c)%R → (0 < eps)%R →
  finite (flog (fadd (fdiv (percentile_linear (deviation_column fv th B t l)
                              (100 * Rmin 1 c))
                           (Fin (Rmax 1 c)))
                     (Fin eps))).
Proof.
  intros Ht Hl [r Hr] Hc Heps.
  destruct (percentile_linear_nonneg (deviation_column fv th B t l)
              (100 * Rmin 1 c)) as (p & -> & Hp).
  - unfold deviation_column. destruct B; [lia|done].
  - unfold deviation_column. apply Forall_fmap, Forall_forall.
    intros b Hb%elem_of_seq. simpl.
    destruct (feature_values_finite b t l) as [f ->]; [lia|done|done|].
    rewrite Hr. simpl. eexists. split; [done|]. apply Rabs_pos.
  - unfold Rmin. case_match; lra.
  - assert (HM : (1 <= Rmax 1 c)%R) by apply Rmax_l.
    cbn [fdiv]. rewrite decide_False by lra. cbn [fadd flog].
    assert (0 <= p / Rmax 1 c)%R.
    { apply Rmult_le_pos; [done|]. left. apply Rinv_0_lt_compat. lra. }
    rewrite decide_True by lra. by eexists.
Qed.

End initialized_values.

Section example_layer.

Lemma sparsemoid_Fin r :
  sparsemoid (Fin r) = Fin (Rmin (Rmax (/ 2 * r + / 2) 0) 1).
Proof. done. Qed.


Lemma sparsemoid_finite r : finite (sparsemoid (Fin r)).
Proof. rewrite sparsemoid_Fin. by eexists. Qed.

Context (D : nat) (fl : bool).

Lemma example_init_run :
  example_init D fl example_world0 = (Ok (example_layer D fl), example_world D fl).
Proof.
  unfold example_world.
  destruct (init_run 1 2 D 3 fl choice_of_one sparsemoid
              (λ _ i, Fin (INR i)) (λ _ _, Fin 0) 1 1 example_world0)
    as (self & codes & Hrun & _ & Hself).
  unfold example_init. rewrite Hrun. cbn [snd]. by rewrite Hself.
Qed.

Lemma example_layer_ok : layer_ok (example_layer D fl) (example_world D fl) 1.
Proof. eapply init_layer_ok. apply example_init_run. Qed.

Lemma example_heap :
  ∃ codes,
    heap (example_world D fl)
    = [example_batch; example_batch_3d;
       init_in_place (λ _ i, Fin (INR i)) (torch_zeros [2; 3; 2 ^ D]);
       init_in_place (λ _ _, Fin 0) (torch_zeros [1; 2; D]);
       torch_full [2; D] NaN; torch_full [2; D] NaN; codes]
    ∧ rng (example_world D fl) = (λ _, / 2)%R.
Proof.
  unfold example_world, example_init.
  destruct (init_run 1 2 D 3 fl choice_of_one sparsemoid
              (λ _ i, Fin (INR i)) (λ _ _, Fin 0) 1 1 example_world0)
    as (self & codes & Hrun & _ & Hself).
  rewrite Hrun. by exists codes.
Qed.

Lemma example_selectors_ok :
  selectors_ok (example_layer D fl) (example_world D fl) 1.
Proof.
  pose proof example_layer_ok as Hok. split.
  - unfold selectors. cbn [choice_function example_layer].
    unfold choice_of_one. rewrite shape_tmap. apply (ok_logits _ _ _ Hok).
  - unfold selectors. cbn [choice_function example_layer].
    apply tmap_wf, (ok_logits_wf _ _ _ Hok).
Qed.

Lemma example_selectors_finite :
  all_finite (selectors (example_layer D fl) (example_world D fl)).
Proof.
  unfold selectors. cbn [choice_function example_layer].
  unfold choice_of_one, all_finite, tmap. cbn [data].
  apply Forall_fmap, Forall_forall. intros v _. by eexists.
Qed.

Lemma example_input : heap (example_world D fl) !!! 0 = example_batch.
Proof. destruct example_heap as (codes & -> & _). done. Qed.

Lemma example_input_3d : heap (example_world D fl) !!! 1 = example_batch_3d.
Proof. destruct example_heap as (codes & -> & _). done. Qed.

Lemma example_batch_finite : wf_tensor example_batch ∧ all_finite example_batch.
Proof. split; [done|]. repeat constructor; by eexists. Qed.

Lemma example_draws j : (0 <= rng (example_world D fl) j <= 1)%R.
Proof. destruct example_heap as (codes & _ & ->). lra. Qed.

Lemma example_response_finite :
  all_finite (heap (example_world D fl) !!! 2).
Proof.
  destruct example_heap as (codes & -> & _).
  change (all_finite (init_in_place (λ _ i, Fin (INR i)) (torch_zeros [2; 3; 2 ^ D]))).
  unfold all_finite, init_in_place. cbn [data].
  apply Forall_fmap, Forall_forall. intros v _. by eexists.
Qed.

(** The initializer runs on the example batch and leaves a layer whose
    parameters are all finite. *)
Lemma example_ready :
  initialize (example_layer D fl) 0 example_eps (example_world D fl)
  = (Ok (), example_world_ready D fl)
  ∧ layer_ok (example_layer D fl) (example_world_ready D fl) 1
  ∧ selectors_ok (example_layer D fl) (example_world_ready D fl) 1
  ∧ parameters_finite (example_layer D fl) (example_world_ready D fl)
  ∧ heap (example_world_ready D fl) !!! 0 = example_batch.
Proof.
  pose proof example_layer_ok as Hok. pose proof example_selectors_ok as Hsel.
  pose proof example_batch_finite as [Hbwf Hbfin].
  assert (Hx : shape (heap (example_world D fl) !!! 0) = [2; 1])
    by (by rewrite example_input).
  destruct (initialize_result _ _ _ Hok Hsel 0 example_eps 2 Hx)
    as (fv & w' & Hrun & Hfv & Hok' & Hsel' & Hresp & Hth & Hlt).
  { lia. }
  { cbn [threshold_init_beta example_layer]. lra. }
  { intros j _. apply example_draws. }
  { cbn [threshold_init_cutoff example_layer]. lra. }
  assert (Hw' : example_world_ready D fl = w').
  { unfold example_world_ready. by rewrite Hrun. }
  rewrite Hw'. split; [done|]. split; [done|].
  rewrite example_input in Hfv.
  pose proof (threshold_finite _ _ 1 example_batch fv 2 Hsel
                example_selectors_finite eq_refl Hbwf Hbfin ltac:(lia) Hfv) as HTF.
  pose proof (temperature_finite _ _ 1 example_batch fv 2 Hsel
                example_selectors_finite eq_refl Hbwf Hbfin ltac:(lia) Hfv) as HLF.
  assert (Hthfin : ∀ t l, t < 2 → l < D →
            finite (get (heap w' !!! feature_thresholds (example_layer D fl)) [t; l])).
  { intros t l Ht Hl. rewrite Hth by done. apply HTF; [done|done|].
    pose proof (example_draws (t * D + l)). cbn [depth example_layer]. lra. }
  split; [|split].
  - destruct Hsel as [Hs Hswf]. split; by rewrite Hsel'.
  - split.
    + rewrite Hsel'. apply example_selectors_finite.
    + eapply all_finite_2d; [apply Hok'|apply Hok'|done].
    + eapply all_finite_2d; [apply Hok'|apply Hok'|].
      intros t l Ht Hl. rewrite Hlt by done.
      apply HLF; [done|done|by apply Hthfin| |unfold example_eps; lra].
      cbn [threshold_init_cutoff example_layer]. lra.
    + rewrite Hresp. apply example_response_finite.
  - destruct (initialize_writes_within (example_layer D fl) 0 example_eps
                (example_world D fl)) as [_ Hframe].
    rewrite Hrun in Hframe. cbn [snd] in Hframe.
    apply list_lookup_total_correct. rewrite Hframe.
    + destruct example_heap as (codes & -> & _). done.
    + cbn [feature_thresholds log_temperatures example_layer].
      rewrite !elem_of_cons, elem_of_nil. lia.
Qed.

End example_layer.

(* ===================================================================== *)
(** ** The forward pass *)
(* ===================================================================== *)

(** C8.  [forward] ends in an assertion failure exactly when its input has
    fewer than two dimensions; the failure leaves the world as it was.  An
    input of two or more dimensions passes the check of line 113, and no
    later step of the computation raises an assertion failure. *)
Theorem forward_asserts_iff_rank_below_2 (self : ODST) (input : loc) (w : world) :
  ((forward self input w).1 = Raise AssertionError
   ↔ ndim (heap w !!! input) < 2)
  ∧ (ndim (heap w !!! input) < 2 →
     forward self input w = (Raise AssertionError, w)).
Proof.
  assert (Hfail : ndim (heap w !!! input) < 2 →
                  forward self input w = (Raise AssertionError, w)).
  { intros Hlt. unfold forward. rewrite run_read.
    rewrite decide_False by lia. done. }
  split; [split|done].
  - intros Hraise. destruct (decide (ndim (heap w !!! input) < 2)); [done|].
    exfalso. revert Hraise. unfold forward. rewrite run_read.
    rewrite decide_True by lia. case_decide.
    + apply (never_asserts_bind (lift _)).
      { apply never_asserts_lift, view_not_assertion. }
      intros flat. apply never_asserts_bind.
      { apply forward_2d_never_asserts. }
      intros out. apply never_asserts_lift, view_not_assertion.
    + apply forward_2d_never_asserts.
  - intros Hlt. by rewrite Hfail.
Qed.

(** C9.  A layer of depth 0 has one leaf per tree (the response tensor has
    a last dimension of size [2 ^ 0 = 1]); the weight of that leaf is
    exactly 1, and the output of [forward] for tree [t] and channel [k] is
    the response stored for that leaf, whatever the input holds.  For a
    2-dimensional input the call succeeds; for an input with more leading
    dimensions it succeeds when both views do, and the output then stores
    the same responses for every flattened batch element [j]. *)
Theorem depth_0_output_is_leaf_response
    (self : ODST) (w : world) (in_features : nat) (input : loc) :
  layer_ok self w in_features →
  selectors_ok self w in_features →
  depth self = 0 →
  shape (heap w !!! response self) = [num_trees self; tree_dim self; 1]
  ∧ (∀ B, shape (heap w !!! input) = [B; in_features] →
       ∃ out fv rw,
         forward self input w = (Ok out, w)
         ∧ forward_feature_values self (heap w !!! input) w = (Ok fv, w)
         ∧ forward_response_weights self fv w = (Ok rw, w)
         ∧ shape rw = [B; num_trees self; 1]
         ∧ ∀ b t k, b < B → t < num_trees self → k < tree_dim self →
             get rw [b; t; 0] = Fin 1
             ∧ get out (output_index self b t k)
               = get (heap w !!! response self) [t; k; 0])
  ∧ (∀ lead,
       shape (heap w !!! input) = lead ++ [in_features] →
       2 ≤ length lead → in_features ≠ 0 → numel lead ≠ 0 →
       ∃ out,
         forward self input w = (Ok out, w)
         ∧ ∀ j t k, j < numel lead → t < num_trees self → k < tree_dim self →
             data out !!! (j * (num_trees self * tree_dim self)
                           + t * tree_dim self + k)
             = get (heap w !!! response self) [t; k; 0]).
Proof.
  intros Hok Hsel HD.
  assert (Hresp : shape (heap w !!! response self)
                  = [num_trees self; tree_dim self; 1]).
  { rewrite (ok_response _ _ _ Hok), HD. done. }
  assert (Hbody : ∀ x B, shape x = [B; in_features] →
            ∃ out fv rw,
              forward_2d self x w = (Ok out, w)
              ∧ forward_feature_values self x w = (Ok fv, w)
              ∧ forward_response_weights self fv w = (Ok rw, w)
              ∧ shape rw = [B; num_trees self; 1]
              ∧ shape out = output_shape self B
              ∧ ∀ b t k, b < B → t < num_trees self → k < tree_dim self →
                  get rw [b; t; 0] = Fin 1
                  ∧ get out (output_index self b t k)
                    = get (heap w !!! response self) [t; k; 0]).
  { intros x B Hx.
    destruct (forward_2d_run self w in_features Hok Hsel x B Hx)
      as (out & fv & Hrun & Hfv & Hshape & _ & Hget).
    destruct (forward_feature_values_run self w in_features x B Hsel Hx)
      as (fv' & Hfv' & Hfvs & Hfvwf & _).
    rewrite Hfv in Hfv'. injection Hfv' as <-.
    destruct (forward_response_weights_run self w in_features Hok fv B Hfvs Hfvwf)
      as (rw & Hrw & Hrws & _ & Hrwget).
    exists out, fv, rw. rewrite HD in Hrws.
    repeat split; try done.
    - rewrite Hrwget by (rewrite ?HD; simpl; lia).
      unfold leaf_weight. by rewrite HD.
    - rewrite Hget by done. unfold output_value, leaf_weight. rewrite HD.
      cbn [Nat.pow seq fmap list_fmap fsum fprod foldr].
      by rewrite fmul_1_l, fadd_0_r. }
  split; [done|]. split.
  - intros B Hx. destruct (Hbody _ B Hx) as (out & fv & rw & Hrun & Hrest).
    exists out, fv, rw. split; [|tauto].
    rewrite forward_rank_2; [done|]. unfold ndim. by rewrite Hx.
  - intros lead Hx Hlen HF Hlead.
    destruct (forward_nd_run self w in_features Hok Hsel input lead
                Hx Hlen HF Hlead)
      as (out & out2 & Hrun & Hrun2 & _ & Hdata).
    destruct (Hbody (Tensor [numel lead; in_features] (data (heap w !!! input)))
                (numel lead) eq_refl)
      as (out2' & fv & rw & Hrun2' & _ & _ & _ & Hshape & Hval).
    rewrite Hrun2 in Hrun2'. injection Hrun2' as <-.
    exists out. split; [done|]. intros j t k Hj Ht Hk.
    destruct (Hval j t k Hj Ht Hk) as [_ <-]. rewrite Hdata.
    unfold get. f_equal. rewrite Hshape.
    unfold output_shape, output_index, offset, numel.
    destruct (flatten_output self); simpl; lia.
Qed.

(* ===================================================================== *)
(** ** The data-aware initializer *)
(* ===================================================================== *)


(* ===================================================================== *)
(** ** The routing codes *)
(* ===================================================================== *)

(** C6.  The constructor always succeeds and stores a routing code table of
    shape [depth × 2^depth × 2] whose entry 0 for level [l] and leaf [c] is
    the bit [(c div 2^l) mod 2] and whose entry 1 is the complement of that
    bit; two leaves whose codes agree at every level are the same leaf.
    [forward] changes nothing in any world it runs in, and [initialize]
    leaves the table of the constructed layer as it is. *)
Theorem routing_codes_table
    (in_features num_trees depth tree_output_dim : nat) (flatten_output : bool)
    (choice_function : tensor → nat → tensor) (bin_function : fval → fval)
    (initialize_response_ initialize_selection_logits_ : initializer)
    (threshold_init_beta threshold_init_cutoff : R) (w : world) :
  ∃ self w1 table,
    __init__ in_features num_trees depth tree_output_dim flatten_output
      choice_function bin_function initialize_response_
      initialize_selection_logits_ threshold_init_beta threshold_init_cutoff w
    = (Ok self, w1)
    ∧ heap w1 !! bin_codes_1hot self = Some table
    ∧ shape table = [depth; 2 ^ depth; 2]
    ∧ wf_tensor table
    ∧ (∀ l c, l < depth → c < 2 ^ depth →
         get table [l; c; 0] = Fin (IZR (routing_bit l c))
         ∧ get table [l; c; 1] = Fin (IZR (1 - routing_bit l c))
         ∧ (routing_bit l c = 0 ∨ routing_bit l c = 1)%Z)
    ∧ (∀ c c', c < 2 ^ depth → c' < 2 ^ depth →
         (∀ l, l < depth → get table [l; c; 0] = get table [l; c'; 0]) →
         c = c')
    ∧ (∀ w2 input, (forward self input w2).2 = w2)
    ∧ (∀ w2 input eps,
         heap (initialize self input eps w2).2 !! bin_codes_1hot self
         = heap w2 !! bin_codes_1hot self).
Proof.
  destruct (init_run in_features num_trees depth tree_output_dim flatten_output
              choice_function bin_function initialize_response_
              initialize_selection_logits_ threshold_init_beta
              threshold_init_cutoff w)
    as (self & codes & Hrun & Hcodes & Hself).
  destruct (make_bin_codes_1hot_spec depth) as (table & Htable & Hshape & Hwf & Hget).
  rewrite Hcodes in Htable. injection Htable as <-.
  eexists self, _, codes. split; [exact Hrun|].
  split; [|split; [done|split; [done|split; [|split; [|split]]]]].
  - rewrite Hself. cbn [heap bin_codes_1hot].
    rewrite lookup_app_r by lia.
    by replace (length (heap w) + 4 - length (heap w)) with 4 by lia.
  - intros l c Hl Hc. destruct (Hget l c Hl Hc) as [H0 H1].
    split; [done|]. split; [done|]. apply routing_bit_01.
  - intros c c' Hc Hc' Hsame. apply (routing_bit_inj depth); [done|done|].
    intros l Hl. specialize (Hsame l Hl).
    destruct (Hget l c Hl Hc) as [H0 _]. destruct (Hget l c' Hl Hc') as [H0' _].
    rewrite H0, H0' in Hsame. injection Hsame as Hsame. by apply eq_IZR.
  - intros w2 input. apply forward_read_only.
  - intros w2 input eps.
    destruct (initialize_writes_within self input eps w2) as [_ Hframe].
    apply Hframe. rewrite Hself. cbn [feature_thresholds log_temperatures bin_codes_1hot].
    rewrite !elem_of_cons, elem_of_nil. lia.
Qed.

(* ===================================================================== *)
(** ** The shape of the output *)
(* ===================================================================== *)

(** C2.  The output of [forward] on an input with two leading dimensions,
    for a layer built with [flatten_output = False]: the example layer of
    depth 0 (2 trees, 3 channels) on a batch of shape [2 × 2 × 1] returns a
    tensor of shape [2 × 2 × 6], the trees and channels merged by the final
    view of line 115, and not [2 × 2 × 2 × 3]. *)
Theorem forward_3d_merges_trees_and_channels :
  flatten_output (example_layer 0 false) = false
  ∧ num_trees (example_layer 0 false) = 2
  ∧ tree_dim (example_layer 0 false) = 3
  ∧ depth (example_layer 0 false) = 0
  ∧ shape (heap (example_world 0 false) !!! 1) = [2; 2; 1]
  ∧ ∃ out,
      forward (example_layer 0 false) 1 (example_world 0 false)
      = (Ok out, example_world 0 false)
      ∧ shape out = [2; 2; 6]
      ∧ shape out ≠ [2; 2; 2; 3].
Proof.
  split; [done|]. split; [done|]. split; [done|]. split; [done|].
  split; [by rewrite example_input_3d|].
  destruct (forward_nd_run (example_layer 0 false) (example_world 0 false) 1
              (example_layer_ok 0 false) (example_selectors_ok 0 false)
              1 [2; 2])
    as (out & out2 & Hrun & _ & Hshape & _).
  - by rewrite example_input_3d.
  - simpl. lia.
  - done.
  - done.
  - exists out. split; [done|]. rewrite Hshape. done.
Qed.

(* ===================================================================== *)
(** ** The statements at the example layer *)
(* ===================================================================== *)

Lemma depth_0_output_is_leaf_response_example :
  ∃ out,
    forward (example_layer 0 true) 0 (example_world 0 true)
    = (Ok out, example_world 0 true)
    ∧ get out [1; 1 * 3 + 2] = get (heap (example_world 0 true) !!! response (example_layer 0 true)) [1; 2; 0].
Proof.
  destruct (depth_0_output_is_leaf_response (example_layer 0 true)
              (example_world 0 true) 1 0
              (example_layer_ok 0 true) (example_selectors_ok 0 true) eq_refl)
    as (_ & H2d & _).
  destruct (H2d 2) as (out & fv & rw & Hrun & _ & _ & _ & Hval).
  - by rewrite example_input.
  - exists out. split; [done|].
    destruct (Hval 1 1 2) as [_ Hout]; simpl; try lia. exact Hout.
Defined.


(* ===================================================================== *)
(** ** Effects of the initializer: assertion, warning, random draws *)
(* ===================================================================== *)

Section more_effects.

Lemma run_lift_cases {A B} (r : result A) (f : A → M B) w :
  (lift r ≫= f) w = match r with Ok a => f a w | Raise e => (Raise e, w) end.
Proof. by destruct r. Qed.

Lemma keeps_bind {A B C} (c : world → C) (m : M A) (f : A → M B) :
  keeps c m → (∀ a, keeps c (f a)) → keeps c (m ≫= f).
Proof.
  intros Hm Hf w. unfold mbind, M_bind. specialize (Hm w).
  destruct (m w) as [[a|e] w']; simpl in *; [|done].
  by rewrite Hf.
Qed.

Lemma keeps_read_only {A C} (c : world → C) (m : M A) : read_only m → keeps c m.
Proof. intros Hm w. by rewrite (Hm w). Qed.

Lemma keeps_rng_assign_data p v : keeps rng (assign_data p v).
Proof. intros w. unfold assign_data. by case_decide. Qed.

Lemma keeps_warnings_assign_data p v : keeps warnings (assign_data p v).
Proof. intros w. unfold assign_data. by case_decide. Qed.

Lemma keeps_warnings_np_random_beta a b size :
  keeps warnings (np_random_beta a b size).
Proof. intros w. unfold np_random_beta. by case_decide. Qed.

Lemma sequence_not_assertion {A} (l : list (result A)) :
  Forall (λ r, r ≠ Raise AssertionError) l → sequence l ≠ Raise AssertionError.
Proof.
  induction 1 as [|r l Hr Hl IH]; [done|]. cbn [sequence].
  destruct r as [a|e]; [|intros [= ->]; by apply Hr].
  unfold mbind, result_bind. by destruct (sequence l).
Qed.

Lemma np_percentile_not_assertion a q : np_percentile a q ≠ Raise AssertionError.
Proof. unfold np_percentile. repeat case_match; done. Qed.

Lemma np_percentile_axis0_not_assertion a q :
  np_percentile_axis0 a q ≠ Raise AssertionError.
Proof. unfold np_percentile_axis0. repeat case_match; done. Qed.

Lemma transpose_not_assertion t : transpose t ≠ Raise AssertionError.
Proof. unfold transpose. repeat case_match; done. Qed.

Lemma never_asserts_assign_data p v : never_asserts (assign_data p v).
Proof. intros w. unfold assign_data. by case_decide. Qed.

Lemma never_asserts_warn msg : never_asserts (warn msg).
Proof. by intros w. Qed.

Lemma never_asserts_np_random_beta a b size :
  never_asserts (np_random_beta a b size).
Proof. intros w. unfold np_random_beta. by case_decide. Qed.

End more_effects.

(** X1.  [initialize] ends in an assertion failure exactly when its input is
    not 2-dimensional, and the failed call leaves the world as it was: no
    warning, no draw, no write. *)
Theorem initialize_asserts_iff_not_2d
    (self : ODST) (input : loc) (eps : R) (w : world) :
  ((initialize self input eps w).1 = Raise AssertionError
   ↔ ndim (heap w !!! input) ≠ 2)
  ∧ (ndim (heap w !!! input) ≠ 2 →
     initialize self input eps w = (Raise AssertionError, w)).
Proof.
  assert (Hfail : ndim (heap w !!! input) ≠ 2 →
                  initialize self input eps w = (Raise AssertionError, w)).
  { intros Hne. unfold initialize. rewrite run_read. by rewrite decide_False. }
  split; [split|done]; [|intros Hne; by rewrite Hfail].
  intros Hraise. destruct (decide (ndim (heap w !!! input) = 2)) as [Heq|]; [|done].
  exfalso. revert Hraise. unfold initialize. rewrite run_read.
  rewrite decide_True by done.
  repeat first
    [ apply never_asserts_bind; [|intros ?]
    | apply never_asserts_read
    | apply never_asserts_ret
    | apply never_asserts_warn
    | apply never_asserts_np_random_beta
    | apply never_asserts_assign_data
    | apply never_asserts_lift
    | apply view_not_assertion
    | apply broadcast_not_assertion
    | apply einsum_bi_ind_bnd_not_assertion
    | apply np_percentile_axis0_not_assertion
    | case_decide ].
  - unfold mbind, result_bind. pose proof (flatten_1_2_not_assertion a1).
    destruct (flatten_1_2 a1); [apply transpose_not_assertion|done].
  - apply sequence_not_assertion.
    generalize (rows (check_numpy a3)) (flatten (tmap (fmul (Fin 100)) a2)).
    intros l1. induction l1 as [|r l1 IH]; intros [|q l2]; simpl;
      try constructor; [apply np_percentile_not_assertion|apply IH].
Qed.

Ltac keeps_steps :=
  repeat first
    [ apply keeps_bind; [|intros ?]
    | apply keeps_rng_assign_data
    | apply keeps_warnings_assign_data
    | apply keeps_warnings_np_random_beta
    | apply keeps_read_only;
      first [ apply read_only_read | apply read_only_ret
            | apply read_only_lift | apply read_only_raise ] ].

Section initialize_effects.

Context (self : ODST) (input : loc) (eps : R).

(** Everything [initialize] does after the warning. *)
Lemma initialize_unfold w :
  initialize self input eps w
  = (if decide (ndim (heap w !!! input) = 2) then
       (if decide (shape (heap w !!! input) !!! 0 < 1000)
        then warn small_sample_warning else mret ());;
       feature_logits ← read (feature_selection_logits self);
       feature_values ←
         lift (einsum_bi_ind_bnd (heap w !!! input)
                 (choice_function self feature_logits 0));
       draws ← np_random_beta (threshold_init_beta self)
                 (threshold_init_beta self) [num_trees self; depth self];
       columns ← lift (flatten_1_2 feature_values ≫= transpose);
       percentiles ←
         lift (sequence (zip_with np_percentile (rows (check_numpy columns))
                           (flatten (tmap (fmul (Fin 100)) draws))));
       thresholds ←
         lift (view (torch_as_tensor percentiles)
                 [Z.of_nat (num_trees self); Z.of_nat (depth self)]);
       assign_data (feature_thresholds self) thresholds;;
       thresholds ← read (feature_thresholds self);
       deviations ← lift (broadcast fsub feature_values thresholds);
       temperatures ←
         lift (np_percentile_axis0 (check_numpy (tmap fabs deviations))
                 (Fin (100 * Rmin 1 (threshold_init_cutoff self))));
       assign_data (log_temperatures self)
         (tmap flog (tmap (λ v, fadd v (Fin eps))
            (tmap (λ v, fdiv v (Fin (Rmax 1 (threshold_init_cutoff self))))
               temperatures)))
     else raise AssertionError) w.
Proof. done. Qed.


Lemma consumes_bind_before {A B} n (m : M A) (f : A → M B) :
  keeps rng m → (∀ a, consumes n (f a)) → consumes n (m ≫= f).
Proof.
  intros Hm Hf w b. unfold mbind, M_bind. specialize (Hm w).
  destruct (m w) as [[a|e] w']; simpl in *; [|done].
  intros Hb i. rewrite (Hf a w' b Hb). by rewrite Hm.
Qed.

Lemma consumes_draw {B} a b size (f : tensor → M B) :
  (∀ t, keeps rng (f t)) → consumes (numel size) (np_random_beta a b size ≫= f).
Proof.
  intros Hf w r. unfold mbind, M_bind, np_random_beta.
  case_decide; [|done]. intros _ i. by rewrite Hf.
Qed.

End initialize_effects.


(** X3.  A call of [initialize] that completes has taken exactly
    [num_trees * depth] values from numpy's random stream, one per split:
    the stream then continues with the draw that follows them. *)
Theorem initialize_takes_one_draw_per_split
    (self : ODST) (input : loc) (eps : R) (w : world) :
  (initialize self input eps w).1 = Ok () →
  ∀ i, rng (initialize self input eps w).2 i
       = rng w (num_trees self * depth self + i).
Proof.
  revert w. generalize (). intros a w. revert w a.
  change (consumes (num_trees self * depth self) (initialize self input eps)).
  intros w a. rewrite initialize_unfold.
  generalize (heap w !!! input). intros x. case_decide; [|done].
  rewrite <- numel_2. revert w a.
  apply consumes_bind_before.
  { intros w. by case_decide. }
  intros _. apply consumes_bind_before; [by intros w|]. intros logits.
  apply consumes_bind_before; [by intros w|]. intros fv.
  apply consumes_draw. intros draws. keeps_steps.
Qed.

Lemma initialize_takes_one_draw_per_split_example :
  rng (initialize (example_layer 1 true) 0 example_eps (example_world 1 true)).2 7
  = rng (example_world 1 true) 9.
Proof.
  apply (initialize_takes_one_draw_per_split (example_layer 1 true) 0
           example_eps (example_world 1 true)).
  destruct (example_ready 1 true) as (Hrun & _). by rewrite Hrun.
Defined.

(* ===================================================================== *)
(** ** Where the initializer stops on invalid hyperparameters *)
(* ===================================================================== *)

Section initialize_stops.

Context (self : ODST) (w : world) (in_features : nat).
Hypothesis Hsel : selectors_ok self w in_features.

(** The world after the warning step. *)
Lemma run_warn_step {A} (B : nat) (k : unit → M A) :
  ∃ w1, heap w1 = heap w ∧ rng w1 = rng w
        ∧ ((if decide (B < 1000) then warn small_sample_warning else mret ())
             ≫= k) w = k () w1.
Proof.
  unfold mbind, M_bind. case_decide.
  - by eexists (World (heap w) (rng w) (warnings w ++ [small_sample_warning])).
  - by exists w.
Qed.

(** [initialize] up to the call of [np.random.beta]. *)
Lemma initialize_up_to_draw input eps B :
  shape (heap w !!! input) = [B; in_features] →
  ∃ fv w1,
    heap w1 = heap w ∧ rng w1 = rng w
    ∧ forward_feature_values self (heap w !!! input) w = (Ok fv, w)
    ∧ shape fv = [B; num_trees self; depth self] ∧ wf_tensor fv
    ∧ initialize self input eps w
      = (draws ← np_random_beta (threshold_init_beta self)
                   (threshold_init_beta self) [num_trees self; depth self];
         columns ← lift (flatten_1_2 fv ≫= transpose);
         percentiles ←
           lift (sequence (zip_with np_percentile (rows (check_numpy columns))
                             (flatten (tmap (fmul (Fin 100)) draws))));
         thresholds ←
           lift (view (torch_as_tensor percentiles)
                   [Z.of_nat (num_trees self); Z.of_nat (depth self)]);
         assign_data (feature_thresholds self) thresholds;;
         initialize_temperatures self fv eps) w1.
Proof.
  intros Hx.
  destruct (forward_feature_values_run self w in_features _ B Hsel Hx)
    as (fv & Hfvrun & Hfvs & Hfvwf & _).
  assert (Heinsum : einsum_bi_ind_bnd (heap w !!! input) (selectors self w)
                    = Ok fv).
  { unfold forward_feature_values in Hfvrun. rewrite run_read in Hfvrun.
    unfold lift in Hfvrun. by inversion Hfvrun. }
  rewrite initialize_unfold.
  rewrite decide_True by (unfold ndim; by rewrite Hx).
  match goal with
  | |- context [(if decide (?n < 1000) then _ else _) ≫= ?k] =>
      destruct (run_warn_step n k) as (w1 & Hheap & Hrng & Hstep)
  end.
  exists fv, w1. rewrite Hstep. repeat (split; [done|]).
  rewrite run_read, Hheap. fold (selectors self w).
  by rewrite (run_lift _ _ _ _ Heinsum).
Qed.

Hypothesis Hok : layer_ok self w in_features.


End initialize_stops.

(* ===================================================================== *)
(** ** The example layers with other hyperparameters *)
(* ===================================================================== *)

Section more_examples.

Context (F : nat) (beta cutoff : R).

Lemma example_with_run :
  example_init_with F beta cutoff example_world1
  = (Ok (example_layer_with beta cutoff), example_world_with F).
Proof.
  unfold example_world_with, example_init_with.
  destruct (init_run F 2 1 3 true choice_uniform sparsemoid
              (λ _ i, Fin (INR i)) (λ _ _, Fin 0) beta cutoff example_world1)
    as (self & codes & Hrun & Hcodes & Hself).
  destruct (init_run F 2 1 3 true choice_uniform sparsemoid
              (λ _ i, Fin (INR i)) (λ _ _, Fin 0) 1 1 example_world1)
    as (self1 & codes1 & Hrun1 & Hcodes1 & Hself1).
  rewrite Hrun, Hrun1. cbn [snd]. rewrite Hself.
  rewrite Hcodes in Hcodes1. by injection Hcodes1 as ->.
Qed.

Lemma example_with_ok :
  layer_ok (example_layer_with beta cutoff) (example_world_with F) F.
Proof. eapply init_layer_ok. apply example_with_run. Qed.

Lemma example_with_heap :
  ∃ codes,
    heap (example_world_with F)
    = [example_batch; example_batch_wide; example_batch_empty;
       example_batch_more; example_batch_swapped;
       init_in_place (λ _ i, Fin (INR i)) (torch_zeros [2; 3; 2 ^ 1]);
       init_in_place (λ _ _, Fin 0) (torch_zeros [F; 2; 1]);
       torch_full [2; 1] NaN; torch_full [2; 1] NaN; codes]
    ∧ rng (example_world_with F) = (λ _, / 2)%R.
Proof.
  unfold example_world_with, example_init_with.
  destruct (init_run F 2 1 3 true choice_uniform sparsemoid
              (λ _ i, Fin (INR i)) (λ _ _, Fin 0) 1 1 example_world1)
    as (self & codes & Hrun & _ & Hself).
  rewrite Hrun. by exists codes.
Qed.

Lemma example_with_selectors_ok :
  selectors_ok (example_layer_with beta cutoff) (example_world_with F) F.
Proof.
  pose proof example_with_ok as Hok. split.
  - unfold selectors. cbn [choice_function example_layer_with].
    unfold choice_uniform. rewrite shape_tmap. apply (ok_logits _ _ _ Hok).
  - unfold selectors. cbn [choice_function example_layer_with].
    apply tmap_wf, (ok_logits_wf _ _ _ Hok).
Qed.

Lemma example_with_input : heap (example_world_with F) !!! 0 = example_batch.
Proof. destruct example_with_heap as (codes & -> & _). done. Qed.

Lemma example_with_input_wide :
  heap (example_world_with F) !!! 1 = example_batch_wide.
Proof. destruct example_with_heap as (codes & -> & _). done. Qed.

Lemma example_with_input_empty :
  heap (example_world_with F) !!! 2 = example_batch_empty.
Proof. destruct example_with_heap as (codes & -> & _). done. Qed.

Lemma example_with_input_more :
  heap (example_world_with F) !!! 3 = example_batch_more.
Proof. destruct example_with_heap as (codes & -> & _). done. Qed.

Lemma example_with_input_swapped :
  heap (example_world_with F) !!! 4 = example_batch_swapped.
Proof. destruct example_with_heap as (codes & -> & _). done. Qed.

Lemma example_with_draws j : (0 <= rng (example_world_with F) j <= 1)%R.
Proof. destruct example_with_heap as (codes & _ & ->). lra. Qed.

End more_examples.

(* ===================================================================== *)
(** ** Invalid hyperparameters of the initializer *)
(* ===================================================================== *)

(** X4.  With a [threshold_init_beta] that is not positive, [initialize] on
    a 2-d sample of the right width raises [ValueError] at the call of
    [np.random.beta] (line 167): no tensor object has been written and no
    draw has been taken from the random stream. *)
Theorem initialize_rejects_nonpositive_beta
    (self : ODST) (w : world) (in_features : nat) (input : loc) (eps : R)
    (B : nat) :
  selectors_ok self w in_features →
  shape (heap w !!! input) = [B; in_features] →
  (threshold_init_beta self <= 0)%R →
  (initialize self input eps w).1 = Raise ValueError
  ∧ heap (initialize self input eps w).2 = heap w
  ∧ rng (initialize self input eps w).2 = rng w.
Proof.
  intros Hsel Hx Hbeta.
  destruct (initialize_up_to_draw self w in_features Hsel input eps B Hx)
    as (fv & w1 & Hheap & Hrng & _ & _ & _ & ->).
  unfold mbind, M_bind, np_random_beta.
  destruct (decide _) as [[? _]|_]; [lra|]. cbn [fst snd]. done.
Qed.

Lemma initialize_rejects_nonpositive_beta_example :
  (initialize (example_layer_with 0 1) 0 example_eps (example_world_with 1)).1
  = Raise ValueError
  ∧ heap (initialize (example_layer_with 0 1) 0 example_eps
            (example_world_with 1)).2
    = heap (example_world_with 1)
  ∧ rng (initialize (example_layer_with 0 1) 0 example_eps
           (example_world_with 1)).2
    = rng (example_world_with 1).
Proof.
  apply (initialize_rejects_nonpositive_beta (example_layer_with 0 1)
           (example_world_with 1) 1 0 example_eps 2).
  - apply example_with_selectors_ok.
  - by rewrite example_with_input.
  - cbn [threshold_init_beta example_layer_with]. lra.
Defined.



(* ===================================================================== *)
(** ** Inputs of more than two dimensions *)
(* ===================================================================== *)

Section leading_dimensions.



End leading_dimensions.



Lemma view_flat_no_features t :
  view t [(-1)%Z; Z.of_nat 0] = Raise RuntimeError.
Proof.
  unfold view.
  rewrite bool_decide_eq_false_2; last first.
  { rewrite !Exists_cons, Exists_nil. simpl. lia. }
  rewrite !filter_cons, filter_nil. by simpl.
Qed.

(** X7.  An input with more than two dimensions and no elements makes
    [forward] raise [RuntimeError]: with a last dimension of size 0 at the
    first view of line 115, with an empty leading dimension at the view of
    the result, after the 2-d body has run on an empty batch. *)
Theorem forward_raises_on_empty_input_of_rank_above_2
    (self : ODST) (w : world) (in_features : nat) (input : loc)
    (lead : list nat) :
  layer_ok self w in_features →
  selectors_ok self w in_features →
  shape (heap w !!! input) = lead ++ [in_features] →
  2 ≤ length lead →
  numel (shape (heap w !!! input)) = 0 →
  forward self input w = (Raise RuntimeError, w).
Proof.
  intros Hok Hsel Hx Hlen Hempty.
  destruct (decide (in_features = 0)) as [->|HF].
  - unfold forward. rewrite run_read.
    assert (ndim (heap w !!! input) = length lead + 1) as Hnd
      by (unfold ndim; rewrite Hx, length_app; simpl; lia).
    rewrite decide_True by lia. rewrite decide_True by lia.
    rewrite Hx, last_snoc. simpl default.
    unfold mbind, M_bind, lift. by rewrite view_flat_no_features.
  - apply (forward_nd_empty_raises self w in_features Hok Hsel input lead);
      try done.
    rewrite Hx, numel_app in Hempty. unfold numel at 2 in Hempty.
    simpl in Hempty. nia.
Qed.

Lemma forward_raises_on_empty_input_of_rank_above_2_example :
  forward (example_layer_with 1 1) 2 (example_world_with 1)
  = (Raise RuntimeError, example_world_with 1).
Proof.
  apply (forward_raises_on_empty_input_of_rank_above_2 (example_layer_with 1 1)
           (example_world_with 1) 1 2 [0; 2]).
  - apply example_with_ok.
  - apply example_with_selectors_ok.
  - by rewrite example_with_input_empty.
  - simpl. lia.
  - by rewrite example_with_input_empty.
Defined.

(** X8.  A 2-d input whose width is neither the layer's number of input
    features nor 1 (and a layer with more than one input feature, so that
    nothing is broadcast) makes [forward] raise [RuntimeError] at the
    einsum of line 124, and the world is as before. *)
Theorem forward_rejects_wrong_width
    (self : ODST) (w : world) (in_features : nat) (input : loc)
    (B width : nat) :
  selectors_ok self w in_features →
  shape (heap w !!! input) = [B; width] →
  width ≠ in_features → width ≠ 1 → in_features ≠ 1 →
  forward self input w = (Raise RuntimeError, w).
Proof.
  intros [Hs _] Hx Hne Hw1 Hf1.
  unfold forward. rewrite run_read.
  assert (ndim (heap w !!! input) = 2) as Hnd by (unfold ndim; by rewrite Hx).
  rewrite decide_True by lia. rewrite decide_False by lia.
  unfold forward_2d, forward_feature_values.
  unfold mbind at 1, M_bind. rewrite run_read. fold (selectors self w).
  unfold lift, einsum_bi_ind_bnd. rewrite Hx, Hs.
  by rewrite !decide_False by done.
Qed.

Lemma forward_rejects_wrong_width_example :
  forward (example_layer_with 1 1) 1 (example_world_with 2)
  = (Raise RuntimeError, example_world_with 2).
Proof.
  apply (forward_rejects_wrong_width (example_layer_with 1 1)
           (example_world_with 2) 2 1 2 3).
  - apply example_with_selectors_ok.
  - by rewrite example_with_input_wide.
  - lia.
  - lia.
  - lia.
Defined.

(* ===================================================================== *)
(** ** Parameters that are still NaN *)
(* ===================================================================== *)

Section not_a_number.







End not_a_number.



(* ===================================================================== *)
(** ** The routing codes reach every leaf pattern *)
(* ===================================================================== *)

Lemma routing_bit_surj D (bits : nat → bool) :
  ∃ c, c < 2 ^ D ∧ ∀ l, l < D → routing_bit l c = Z.b2z (bits l).
Proof.
  induction D as [|D (c & Hc & IH)].
  - exists 0. split; [simpl; lia|]. intros l Hl. lia.
  - exists (c + Nat.b2n (bits D) * 2 ^ D). split.
    + rewrite Nat.pow_succ_r'. destruct (bits D); simpl; lia.
    + intros l Hl. destruct (decide (l = D)) as [->|Hne].
      * rewrite routing_bit_high; [by destruct (bits D)|done|].
        destruct (bits D); simpl; lia.
      * rewrite routing_bit_low by (done || lia). apply IH. lia.
Qed.

(** X12.  Every pattern of [depth] bits is the routing code of a leaf: the
    table the constructor builds (lines 102-110) has, for each assignment of
    a bit to every level, a leaf [c] whose entry 0 at level [l] is that bit
    and whose entry 1 is its complement. *)
Theorem routing_codes_reach_every_pattern (depth : nat) (bits : nat → bool) :
  ∃ table c,
    make_bin_codes_1hot depth = Ok table
    ∧ c < 2 ^ depth
    ∧ ∀ l, l < depth →
        get table [l; c; 0] = Fin (IZR (Z.b2z (bits l)))
        ∧ get table [l; c; 1] = Fin (IZR (1 - Z.b2z (bits l))).
Proof.
  destruct (make_bin_codes_1hot_spec depth)
    as (table & Htable & _ & _ & Hget).
  destruct (routing_bit_surj depth bits) as (c & Hc & Hbits).
  exists table, c. split; [done|]. split; [done|].
  intros l Hl. destruct (Hget l c Hl Hc) as [H0 H1].
  by rewrite H0, H1, Hbits.
Qed.

(* ===================================================================== *)
(** ** Rows of a batch do not interact *)
(* ===================================================================== *)

(** X13.  [forward] treats every row of a batch on its own: when row [b]
    of one 2-d input holds the same values as row [b'] of another, the
    outputs agree on these rows, for every tree and response channel,
    whatever the other rows and the batch sizes are. *)
Theorem forward_rows_do_not_interact
    (self : ODST) (w : world) (in_features : nat) (input input' : loc)
    (B B' b b' : nat) :
  layer_ok self w in_features →
  selectors_ok self w in_features →
  shape (heap w !!! input) = [B; in_features] →
  shape (heap w !!! input') = [B'; in_features] →
  b < B → b' < B' →
  (∀ i, i < in_features →
     get (heap w !!! input) [b; i] = get (heap w !!! input') [b'; i]) →
  ∃ out out',
    forward self input w = (Ok out, w)
    ∧ forward self input' w = (Ok out', w)
    ∧ ∀ t k, t < num_trees self → k < tree_dim self →
        get out (output_index self b t k) = get out' (output_index self b' t k).
Proof.
  intros Hok Hsel Hx Hx' Hb Hb' Hrow.
  destruct (forward_2d_run self w in_features Hok Hsel _ B Hx)
    as (out & fv & Hrun & Hfv & _ & _ & Hget).
  destruct (forward_2d_run self w in_features Hok Hsel _ B' Hx')
    as (out' & fv' & Hrun' & Hfv' & _ & _ & Hget').
  destruct (forward_feature_values_run self w in_features _ B Hsel Hx)
    as (fv0 & Hfv0 & _ & _ & Hfvget).
  destruct (forward_feature_values_run self w in_features _ B' Hsel Hx')
    as (fv0' & Hfv0' & _ & _ & Hfvget').
  rewrite Hfv in Hfv0. injection Hfv0 as <-.
  rewrite Hfv' in Hfv0'. injection Hfv0' as <-.
  exists out, out'.
  split; [rewrite (forward_rank_2 self w input); [done|unfold ndim; by rewrite Hx]|].
  split; [rewrite (forward_rank_2 self w input'); [done|unfold ndim; by rewrite Hx']|].
  intros t k Ht Hk. rewrite Hget, Hget' by done.
  assert (Hsame : ∀ l, l < depth self → get fv [b; t; l] = get fv' [b'; t; l]).
  { intros l Hl. rewrite Hfvget, Hfvget' by done.
    unfold feature_value. rewrite Hx, Hx'. simpl default.
    f_equal. apply fmap_seq_ext. intros i Hi. by rewrite Hrow. }
  unfold output_value. f_equal. apply fmap_seq_ext. intros c Hc. f_equal.
  unfold leaf_weight. f_equal. apply fmap_seq_ext. intros l Hl.
  unfold bin_match. f_equal. apply fmap_seq_ext. intros s Hs. f_equal.
  unfold bin_value, threshold_logit. by rewrite Hsame.
Qed.

Lemma forward_rows_do_not_interact_example :
  ∃ out out',
    forward (example_layer_with 1 1) 0 (example_world_with 1)
    = (Ok out, example_world_with 1)
    ∧ forward (example_layer_with 1 1) 3 (example_world_with 1)
      = (Ok out', example_world_with 1)
    ∧ ∀ t k, t < 2 → k < 3 →
        get out (output_index (example_layer_with 1 1) 1 t k)
        = get out' (output_index (example_layer_with 1 1) 0 t k).
Proof.
  apply (forward_rows_do_not_interact (example_layer_with 1 1)
           (example_world_with 1) 1 0 3 2 3 1 0).
  - apply example_with_ok.
  - apply example_with_selectors_ok.
  - by rewrite example_with_input.
  - by rewrite example_with_input_more.
  - lia.
  - lia.
  - intros i Hi. rewrite example_with_input, example_with_input_more.
    by replace i with 0 by lia.
Defined.

(* ===================================================================== *)
(** ** The forward pass on finite values *)
(* ===================================================================== *)

Section forward_reference.

Context (self : ODST) (w : world) (in_features : nat).
Hypothesis Hok : layer_ok self w in_features.
Hypothesis Hsel : selectors_ok self w in_features.
Hypothesis Hfin : parameters_finite self w.
Hypothesis Hbin : ∀ r, finite (bin_function self (Fin r)).


End forward_reference.

(* ===================================================================== *)
(** ** Hard decisions *)
(* ===================================================================== *)

Section hard_decisions.



Context (self : ODST) (w : world) (in_features : nat) (x : tensor) (b t : nat).

Hypothesis Hlaw :
  ∀ r, fadd (bin_function self (Fin r)) (bin_function self (Fin (- r))) = Fin 1.
Hypothesis Hhard :
  ∀ l, l < depth self →
    bin_function self
      (Fin (Reference.scaled_distance self w in_features x b t l)) = Fin 0
    ∨ bin_function self
        (Fin (Reference.scaled_distance self w in_features x b t l)) = Fin 1.





End hard_decisions.


Section loaded_example.

Lemma example_loaded_heap :
  ∃ codes,
    make_bin_codes_1hot 1 = Ok codes
    ∧ heap example_world_loaded
      = [example_batch; example_batch_3d;
         init_in_place (λ _ i, Fin (INR i)) (torch_zeros [2; 3; 2 ^ 1]);
         init_in_place (λ _ _, Fin 0) (torch_zeros [1; 2; 1]);
         Tensor [2; 1] [Fin 0; Fin 0]; Tensor [2; 1] [Fin 0; Fin 0]; codes].
Proof.
  destruct (example_heap 1 true) as (codes & Hheap & _).
  pose proof (ok_codes _ _ _ (example_layer_ok 1 true)) as Hcodes.
  rewrite Hheap in Hcodes. exists codes. split; [exact Hcodes|].
  unfold example_world_loaded.
  rewrite run_assign_data by (by rewrite Hheap).
  unfold assign_data. cbn [heap]. rewrite Hheap.
  by rewrite decide_True by done.
Qed.

Lemma example_loaded_rng :
  rng example_world_loaded = rng (example_world 1 true).
Proof.
  destruct (example_heap 1 true) as (codes & Hheap & _).
  unfold example_world_loaded.
  rewrite run_assign_data by (by rewrite Hheap).
  unfold assign_data. cbn [heap]. rewrite Hheap.
  by rewrite decide_True by done.
Qed.

Lemma example_loaded_ok : layer_ok (example_layer 1 true) example_world_loaded 1.
Proof.
  destruct example_loaded_heap as (codes & Hcodes & Hheap).
  split; rewrite ?Hheap; try done.
  - apply (ok_distinct _ _ _ (example_layer_ok 1 true)).
  - simpl. repeat (constructor; [lia|]). constructor.
Qed.

Lemma example_loaded_selectors_ok :
  selectors_ok (example_layer 1 true) example_world_loaded 1.
Proof.
  pose proof example_loaded_ok as Hok. split.
  - unfold selectors. cbn [choice_function example_layer].
    unfold choice_of_one. rewrite shape_tmap. apply (ok_logits _ _ _ Hok).
  - unfold selectors. cbn [choice_function example_layer].
    apply tmap_wf, (ok_logits_wf _ _ _ Hok).
Qed.


Lemma example_loaded_input : heap example_world_loaded !!! 0 = example_batch.
Proof. destruct example_loaded_heap as (codes & _ & ->). done. Qed.


End loaded_example.


(* ===================================================================== *)
(** ** A sample batch that is itself a parameter *)
(* ===================================================================== *)

Section aliased_sample.


End aliased_sample.


(* ===================================================================== *)
(** ** What the initializer depends on *)
(* ===================================================================== *)

Lemma feature_values_same_selectors self w1 w2 x fv :
  selectors self w1 = selectors self w2 →
  forward_feature_values self x w1 = (Ok fv, w1) →
  forward_feature_values self x w2 = (Ok fv, w2).
Proof.
  intros Hsel. unfold forward_feature_values. rewrite !run_read.
  fold (selectors self w1) (selectors self w2). rewrite Hsel.
  unfold lift. by intros [= ->].
Qed.

(** X16.  [initialize] overwrites whatever the thresholds and
    log-temperatures held: in two worlds that agree on the sample, on the
    selectors and on the next [num_trees * depth] draws, it leaves the same
    thresholds and the same log-temperatures, whatever values these
    parameters had before. *)
Theorem initialize_forgets_old_parameters
    (self : ODST) (w1 w2 : world) (in_features : nat) (input : loc) (eps : R)
    (B : nat) :
  layer_ok self w1 in_features →
  layer_ok self w2 in_features →
  selectors_ok self w1 in_features →
  selectors self w1 = selectors self w2 →
  heap w1 !!! input = heap w2 !!! input →
  (∀ j, j < num_trees self * depth self → rng w1 j = rng w2 j) →
  shape (heap w1 !!! input) = [B; in_features] →
  1 ≤ B →
  (0 < threshold_init_beta self)%R →
  (∀ j, j < num_trees self * depth self → (0 <= rng w1 j <= 1)%R) →
  (0 <= threshold_init_cutoff self)%R →
  ∃ w1' w2',
    initialize self input eps w1 = (Ok (), w1')
    ∧ initialize self input eps w2 = (Ok (), w2')
    ∧ ∀ t l, t < num_trees self → l < depth self →
        get (heap w1' !!! feature_thresholds self) [t; l]
        = get (heap w2' !!! feature_thresholds self) [t; l]
        ∧ get (heap w1' !!! log_temperatures self) [t; l]
          = get (heap w2' !!! log_temperatures self) [t; l].
Proof.
  intros Hok1 Hok2 Hsel1 Hsel Hin Hrng Hx HB Hbeta Hdraws Hcut.
  assert (Hsel2 : selectors_ok self w2 in_features).
  { destruct Hsel1. split; by rewrite <- Hsel. }
  destruct (initialize_result self w1 in_features Hok1 Hsel1 input eps B
              Hx HB Hbeta Hdraws Hcut)
    as (fv1 & w1' & Hrun1 & Hfv1 & _ & _ & _ & Hth1 & Hlt1).
  destruct (initialize_result self w2 in_features Hok2 Hsel2 input eps B)
    as (fv2 & w2' & Hrun2 & Hfv2 & _ & _ & _ & Hth2 & Hlt2);
    [by rewrite <- Hin|done|done| |done|].
  { intros j Hj. rewrite <- Hrng by done. by apply Hdraws. }
  apply (feature_values_same_selectors self w1 w2 _ fv1 Hsel) in Hfv1.
  rewrite Hin, Hfv2 in Hfv1. injection Hfv1 as ->.
  exists w1', w2'. split; [done|]. split; [done|].
  intros t l Ht Hl.
  assert (Hj : t * depth self + l < num_trees self * depth self) by nia.
  assert (Hth : get (heap w1' !!! feature_thresholds self) [t; l]
                = get (heap w2' !!! feature_thresholds self) [t; l]).
  { by rewrite Hth1, Hth2, Hrng by done. }
  split; [done|]. rewrite Hlt1, Hlt2 by done.
  unfold deviation_column. by rewrite Hth.
Qed.

Lemma initialize_forgets_old_parameters_example :
  ∃ w1' w2',
    initialize (example_layer 1 true) 0 example_eps (example_world 1 true)
    = (Ok (), w1')
    ∧ initialize (example_layer 1 true) 0 example_eps example_world_loaded
      = (Ok (), w2')
    ∧ ∀ t l, t < 2 → l < 1 →
        get (heap w1' !!! 4) [t; l] = get (heap w2' !!! 4) [t; l]
        ∧ get (heap w1' !!! 5) [t; l] = get (heap w2' !!! 5) [t; l].
Proof.
  apply (initialize_forgets_old_parameters (example_layer 1 true)
           (example_world 1 true) example_world_loaded 1 0 example_eps 2).
  - apply example_layer_ok.
  - apply example_loaded_ok.
  - apply example_selectors_ok.
  - unfold selectors. f_equal.
  - by rewrite example_loaded_input, example_input.
  - intros j _. by rewrite example_loaded_rng.
  - by rewrite example_input.
  - lia.
  - cbn [threshold_init_beta example_layer]. lra.
  - intros j _. apply example_draws.
  - cbn [threshold_init_cutoff example_layer]. lra.
Defined.

(* ===================================================================== *)
(** ** Before and after the data-aware initialization *)
(* ===================================================================== *)




(* ===================================================================== *)
(** ** The printed form *)
(* ===================================================================== *)

Lemma repr_run self w in_features :
  shape (heap w !!! feature_selection_logits self)
  = [in_features; num_trees self; depth self] →
  __repr__ self w
  = (Ok (repr_format in_features (num_trees self) (depth self) (tree_dim self)
           (flatten_output self)), w).
Proof. intros Hs. unfold __repr__. rewrite run_read. by rewrite Hs. Qed.

(** X19.  The printed form of a layer shows the arguments it was built
    with.  [__repr__] reads the number of input features off the selection
    logits; for the layer the constructor returns this is the constructor's
    [in_features], and it stays so after any call of [initialize], whether
    that call completes or raises.  [__repr__] changes nothing. *)
Theorem repr_shows_constructor_arguments
    (F T D K : nat) (fl : bool)
    (choice : tensor → nat → tensor) (bin : fval → fval)
    (initialize_response_ initialize_selection_logits_ : initializer)
    (beta cutoff : R) (w : world) :
  ∃ self w1,
    __init__ F T D K fl choice bin initialize_response_
      initialize_selection_logits_ beta cutoff w
    = (Ok self, w1)
    ∧ __repr__ self w1 = (Ok (repr_format F T D K fl), w1)
    ∧ ∀ input eps,
        let w2 := (initialize self input eps w1).2 in
        __repr__ self w2 = (Ok (repr_format F T D K fl), w2).
Proof.
  destruct (init_run F T D K fl choice bin initialize_response_
              initialize_selection_logits_ beta cutoff w)
    as (self & codes & Hrun & Hcodes & Hself).
  pose proof (init_layer_ok _ _ _ _ _ _ _ _ _ _ _ _ _ _ Hrun) as Hok.
  set (w1 := World _ _ _) in *.
  assert (HT : num_trees self = T) by (by subst self).
  assert (HK : tree_dim self = K) by (by subst self).
  assert (HD : depth self = D) by (by subst self).
  assert (Hfl : flatten_output self = fl) by (by subst self).
  exists self, w1. split; [done|]. split.
  - rewrite (repr_run self w1 F) by apply (ok_logits _ _ _ Hok).
    by rewrite HT, HK, HD, Hfl.
  - intros input eps w2.
    rewrite (repr_run self w2 F); [by rewrite HT, HK, HD, Hfl|].
    rewrite <- (ok_logits _ _ _ Hok). f_equal.
    rewrite !list_lookup_total_alt. f_equal.
    apply (initialize_writes_within self input eps w1).
    pose proof (ok_distinct _ _ _ Hok) as Hd.
    rewrite !NoDup_cons, !elem_of_cons, elem_of_nil in Hd.
    rewrite !elem_of_cons, elem_of_nil. intros [Heq|[Heq|[]]];
      rewrite Heq in Hd; tauto.
Qed.

Example repr_example :
  (__repr__ (example_layer 1 true) (example_world 1 true)).1
  = Ok "ODST(in_features=1, num_trees=2, depth=1, tree_dim=3, flatten_output=True)".
Proof.
  rewrite (repr_run _ _ 1) by apply (ok_logits _ _ _ (example_layer_ok 1 true)).
  reflexivity.
Qed.

(* ===================================================================== *)
(** ** The order of the sample rows *)
(* ===================================================================== *)

Section row_order.

Lemma insert_sorted_comm x y l :
  finite x → finite y → Forall finite l →
  insert_sorted x (insert_sorted y l) = insert_sorted y (insert_sorted x l).
Proof.
  intros [rx ->] [ry ->] Hl.
  induction Hl as [|z l [rz ->] Hl IH]; simpl.
  - repeat case_bool_decide; try done; try lra.
    assert (rx = ry) as -> by lra. done.
  - repeat (case_bool_decide; simpl); try done; try lra.
    + assert (rx = ry) as -> by lra. done.
    + by rewrite IH.
Qed.

Lemma np_sort_proper a a' :
  Forall finite a → a ≡ₚ a' → np_sort a = np_sort a'.
Proof.
  intros Ha Hp. induction Hp as [|x a a' Hp IH|x y a|a a' a'' Hp1 IH1 Hp2 IH2].
  - done.
  - apply Forall_cons in Ha as [Hx Ha]. simpl. by rewrite IH.
  - apply Forall_cons in Ha as [Hy Ha]. apply Forall_cons in Ha as [Hx Ha].
    simpl. apply insert_sorted_comm; [done|done|].
    by apply np_sort_Forall.
  - rewrite IH1 by done. apply IH2. by rewrite <- Hp1.
Qed.

Lemma percentile_linear_perm a a' q :
  Forall finite a → a ≡ₚ a' →
  percentile_linear a q = percentile_linear a' q.
Proof.
  intros Ha Hp. unfold percentile_linear.
  assert (Hnan : ∀ l, Forall finite l → existsb is_nan l = false).
  { clear. induction 1 as [|v l [r ->] Hl IH]; simpl; done. }
  rewrite (Hnan a Ha), (Hnan a') by (by rewrite <- Hp).
  by rewrite (np_sort_proper a a' Ha Hp), (Permutation_length Hp).
Qed.

Lemma fmap_lookup_seq {A} (g : nat → A) (order : list nat) :
  (λ b, g (order !!! b)) <$> seq 0 (length order) = g <$> order.
Proof.
  apply list_eq. intros i. rewrite !list_lookup_fmap.
  destruct (decide (i < length order)) as [Hi|Hi].
  - rewrite lookup_seq_lt by done. simpl.
    destruct (lookup_lt_is_Some_2 order i Hi) as [b Hb].
    by rewrite Hb, (list_lookup_total_correct _ _ _ Hb).
  - rewrite lookup_seq_ge by lia. by rewrite lookup_ge_None_2 by lia.
Qed.

End row_order.

(** X21.  [initialize] does not depend on the order of the rows of its
    sample: on two samples of finite values that hold the same rows in a
    different order it sets the same thresholds and the same
    log-temperatures, the percentiles being taken of the sorted columns. *)
Theorem initialize_ignores_row_order
    (self : ODST) (w : world) (in_features : nat) (input input' : loc)
    (eps : R) (B : nat) (order : list nat) :
  layer_ok self w in_features →
  selectors_ok self w in_features →
  all_finite (selectors self w) →
  shape (heap w !!! input) = [B; in_features] →
  wf_tensor (heap w !!! input) →
  all_finite (heap w !!! input) →
  shape (heap w !!! input') = [B; in_features] →
  order ≡ₚ seq 0 B →
  (∀ b i, b < B → i < in_features →
     get (heap w !!! input') [b; i] = get (heap w !!! input) [order !!! b; i]) →
  1 ≤ B →
  (0 < threshold_init_beta self)%R →
  (∀ j, j < num_trees self * depth self → (0 <= rng w j <= 1)%R) →
  (0 <= threshold_init_cutoff self)%R →
  ∃ w1 w2,
    initialize self input eps w = (Ok (), w1)
    ∧ initialize self input' eps w = (Ok (), w2)
    ∧ ∀ t l, t < num_trees self → l < depth self →
        get (heap w1 !!! feature_thresholds self) [t; l]
        = get (heap w2 !!! feature_thresholds self) [t; l]
        ∧ get (heap w1 !!! log_temperatures self) [t; l]
          = get (heap w2 !!! log_temperatures self) [t; l].
Proof.
  intros Hok Hsel Hselfin Hx Hxwf Hxfin Hx' Hperm Hrow HB Hbeta Hdraws Hcut.
  destruct (initialize_result self w in_features Hok Hsel input eps B
              Hx HB Hbeta Hdraws Hcut)
    as (fv & w1 & Hrun1 & Hfv & _ & _ & _ & Hth1 & Hlt1).
  destruct (initialize_result self w in_features Hok Hsel input' eps B
              Hx' HB Hbeta Hdraws Hcut)
    as (fv' & w2 & Hrun2 & Hfv' & _ & _ & _ & Hth2 & Hlt2).
  exists w1, w2. split; [done|]. split; [done|].
  destruct (forward_feature_values_run self w in_features _ B Hsel Hx)
    as (fv0 & Hfv0 & _ & _ & Hget).
  destruct (forward_feature_values_run self w in_features _ B Hsel Hx')
    as (fv0' & Hfv0' & _ & _ & Hget').
  rewrite Hfv in Hfv0. injection Hfv0 as <-.
  rewrite Hfv' in Hfv0'. injection Hfv0' as <-.
  assert (Hlen : length order = B).
  { by rewrite (Permutation_length Hperm), length_seq. }
  assert (Hin : ∀ b, b < B → order !!! b < B).
  { intros b Hb.
    destruct (lookup_lt_is_Some_2 order b) as [c Hc]; [lia|].
    rewrite (list_lookup_total_correct _ _ _ Hc).
    apply list_elem_of_lookup_2 in Hc. rewrite Hperm in Hc.
    apply elem_of_seq in Hc. lia. }
  pose proof (feature_values_finite self w in_features _ fv B Hsel Hselfin
                Hx Hxwf Hxfin Hfv) as Hfvfin.
  intros t l Ht Hl.
  assert (Hrows : ∀ b, b < B → get fv' [b; t; l] = get fv [order !!! b; t; l]).
  { intros b Hb. rewrite Hget', Hget by auto.
    unfold feature_value. rewrite Hx, Hx'. simpl default.
    f_equal. apply fmap_seq_ext. intros i Hi. by rewrite Hrow. }
  assert (Hmoved : ∀ g : fval → fval,
            (λ b, g (get fv' [b; t; l])) <$> seq 0 B
            ≡ₚ (λ b, g (get fv [b; t; l])) <$> seq 0 B).
  { intros g.
    rewrite (fmap_seq_ext _ (λ b, g (get fv [order !!! b; t; l])) B);
      [|intros b Hb; by rewrite Hrows].
    rewrite <- Hlen at 1.
    rewrite (fmap_lookup_seq (λ b, g (get fv [b; t; l])) order).
    by rewrite Hperm. }
  assert (Hj : t * depth self + l < num_trees self * depth self) by nia.
  assert (Hth : get (heap w1 !!! feature_thresholds self) [t; l]
                = get (heap w2 !!! feature_thresholds self) [t; l]).
  { rewrite Hth1, Hth2 by done. apply percentile_linear_perm.
    - unfold column. apply Forall_fmap, Forall_forall.
      intros b Hb%elem_of_seq. apply Hfvfin; [lia|done|done].
    - unfold column. symmetry. apply (Hmoved (λ v, v)). }
  split; [done|]. rewrite Hlt1, Hlt2 by done.
  unfold deviation_column. rewrite <- Hth.
  destruct (threshold_finite self w in_features _ fv B Hsel Hselfin
              Hx Hxwf Hxfin HB Hfv t l (100 * rng w (t * depth self + l)))
    as [θ Hθ]; [done|done|specialize (Hdraws _ Hj); lra|].
  rewrite <- Hth1 in Hθ by done.
  do 3 f_equal. apply percentile_linear_perm.
  - apply Forall_fmap, Forall_forall.
    intros b Hb%elem_of_seq. unfold compose.
    destruct (Hfvfin b t l) as [f ->]; [lia|done|done|].
    rewrite Hθ. by eexists.
  - symmetry.
    apply (Hmoved (λ v, fabs (fsub v
             (get (heap w1 !!! feature_thresholds self) [t; l])))).
Qed.

Lemma initialize_ignores_row_order_example :
  ∃ w1 w2,
    initialize (example_layer_with 1 1) 0 example_eps (example_world_with 1)
    = (Ok (), w1)
    ∧ initialize (example_layer_with 1 1) 4 example_eps (example_world_with 1)
      = (Ok (), w2)
    ∧ ∀ t l, t < 2 → l < 1 →
        get (heap w1 !!! 7) [t; l] = get (heap w2 !!! 7) [t; l]
        ∧ get (heap w1 !!! 8) [t; l] = get (heap w2 !!! 8) [t; l].
Proof.
  apply (initialize_ignores_row_order (example_layer_with 1 1)
           (example_world_with 1) 1 0 4 example_eps 2 [1; 0]).
  - apply example_with_ok.
  - apply example_with_selectors_ok.
  - unfold selectors. cbn [choice_function example_layer_with].
    unfold choice_uniform, all_finite, tmap. cbn [data].
    apply Forall_fmap, Forall_forall. intros v _. by eexists.
  - by rewrite example_with_input.
  - rewrite example_with_input. apply example_batch_finite.
  - rewrite example_with_input. apply example_batch_finite.
  - by rewrite example_with_input_swapped.
  - apply Permutation_swap.
  - intros b i Hb Hi.
    rewrite example_with_input, example_with_input_swapped.
    replace i with 0 by lia. by destruct b as [|[|b]]; [| |lia].
  - lia.
  - cbn [threshold_init_beta example_layer_with]. lra.
  - intros j _. apply example_with_draws.
  - cbn [threshold_init_cutoff example_layer_with]. lra.
Defined.

(* ===================================================================== *)
(** ** The layer stays well formed *)
(* ===================================================================== *)

Section invariant.

Lemma preserves_bind {A B} inv (m : M A) (f : A → M B) :
  preserves inv m → (∀ a, preserves inv (f a)) → preserves inv (m ≫= f).
Proof.
  intros Hm Hf w Hw. unfold mbind, M_bind. specialize (Hm w Hw).
  destruct (m w) as [[a|e] w']; simpl in *; [by apply Hf|done].
Qed.

Lemma preserves_bind_returns {A B} inv (post : A → Prop) (m : M A)
    (f : A → M B) :
  preserves inv m → returns post m → (∀ a, post a → preserves inv (f a)) →
  preserves inv (m ≫= f).
Proof.
  intros Hm Hr Hf w Hw. unfold mbind, M_bind.
  specialize (Hm w Hw). specialize (Hr w).
  destruct (m w) as [[a|e] w']; simpl in *; [|done].
  apply Hf; [by apply Hr|done].
Qed.

Lemma preserves_same_heap {A} self in_features (m : M A) :
  keeps heap m → preserves (λ w, layer_ok self w in_features) m.
Proof.
  intros Hm w [H1 H2 H3 H4 H5 H6 H7 H8 H9 H10 H11].
  specialize (Hm w). split; rewrite ?Hm; done.
Qed.

Lemma returns_lift {A} (post : A → Prop) (r : result A) :
  (∀ a, r = Ok a → post a) → returns post (lift r).
Proof. intros Hr w a. unfold lift. simpl. apply Hr. Qed.

Lemma view_2_wf l T D t :
  view (torch_as_tensor l) [Z.of_nat T; Z.of_nat D] = Ok t → wf_tensor t.
Proof.
  unfold view.
  rewrite bool_decide_eq_false_2; last first.
  { rewrite !Exists_cons, Exists_nil. lia. }
  rewrite !filter_cons, filter_nil.
  rewrite (decide_True (P := (Z.of_nat T ≠ -1)%Z)) by lia.
  rewrite (decide_True (P := (Z.of_nat D ≠ -1)%Z)) by lia.
  rewrite (decide_False (P := (Z.of_nat T = -1)%Z)) by lia.
  rewrite (decide_False (P := (Z.of_nat D = -1)%Z)) by lia.
  simpl length. cbv iota. simpl foldr.
  case_decide as Hn; [|done]. intros [= <-].
  unfold wf_tensor, torch_as_tensor in *. cbn [shape data] in *.
  rewrite !Nat2Z.id. unfold numel in *. simpl in *. lia.
Qed.

Lemma np_percentile_axis0_wf a q p :
  np_percentile_axis0 a q = Ok p → wf_tensor p.
Proof.
  unfold np_percentile_axis0. repeat case_match; try done.
  intros [= <-]. apply build_wf.
Qed.

Context (self : ODST) (in_features : nat).

Lemma preserves_assign_data p v :
  p = feature_thresholds self ∨ p = log_temperatures self →
  wf_tensor v →
  preserves (λ w, layer_ok self w in_features) (assign_data p v).
Proof.
  intros Hp Hv w Hok. unfold assign_data. case_decide as Hs; [|done].
  cbn [snd].
  pose proof (ok_distinct _ _ _ Hok) as Hd.
  rewrite !NoDup_cons, !elem_of_cons, elem_of_nil in Hd.
  pose proof (ok_allocated _ _ _ Hok) as Ha. rewrite !Forall_cons in Ha.
  assert (Hlt : p < length (heap w)) by (destruct Hp as [-> | ->]; tauto).
  assert (Hsame : ∀ l, l ≠ p →
            <[p := Tensor (shape (heap w !!! p)) (data v)]> (heap w) !!! l
            = heap w !!! l).
  { intros l Hl. by apply list_lookup_total_insert_ne. }
  assert (Hnew : <[p := Tensor (shape (heap w !!! p)) (data v)]> (heap w) !!! p
                 = Tensor (shape (heap w !!! p)) (data v)).
  { by apply list_lookup_total_insert_eq. }
  assert (Hwf : wf_tensor (Tensor (shape (heap w !!! p)) (data v))).
  { unfold wf_tensor in *. cbn [shape data]. by rewrite <- Hs. }
  assert (Hne : ∀ l, l ∈ [response self; feature_selection_logits self;
                            bin_codes_1hot self] → l ≠ p).
  { intros l Hl Heq. subst l. rewrite !elem_of_cons, elem_of_nil in Hl.
    destruct Hp as [Hp|Hp]; rewrite Hp in Hl; intuition congruence. }
  assert (Hthr : p ≠ feature_thresholds self →
            <[p := Tensor (shape (heap w !!! p)) (data v)]> (heap w)
              !!! feature_thresholds self
            = heap w !!! feature_thresholds self).
  { intros Hn. apply Hsame. destruct Hp as [Hp|Hp]; rewrite Hp in *; intuition congruence. }
  assert (Htmp : p ≠ log_temperatures self →
            <[p := Tensor (shape (heap w !!! p)) (data v)]> (heap w)
              !!! log_temperatures self
            = heap w !!! log_temperatures self).
  { intros Hn. apply Hsame. destruct Hp as [Hp|Hp]; rewrite Hp in *; intuition congruence. }
  destruct Hok as [H1 H2 H3 H4 H5 H6 H7 H8 H9 H10 H11].
  split; cbn [heap]; try done.
  - rewrite length_insert. done.
  - rewrite Hsame; [done|]. apply Hne; rewrite !elem_of_cons; tauto.
  - rewrite Hsame; [done|]. apply Hne; rewrite !elem_of_cons; tauto.
  - rewrite Hsame; [done|]. apply Hne; rewrite !elem_of_cons; tauto.
  - rewrite Hsame; [done|]. apply Hne; rewrite !elem_of_cons; tauto.
  - destruct (decide (p = feature_thresholds self)) as [->|Hn].
    + by rewrite Hnew.
    + by rewrite Hthr.
  - destruct (decide (p = feature_thresholds self)) as [->|Hn].
    + by rewrite Hnew.
    + by rewrite Hthr.
  - destruct (decide (p = log_temperatures self)) as [->|Hn].
    + by rewrite Hnew.
    + by rewrite Htmp.
  - destruct (decide (p = log_temperatures self)) as [->|Hn].
    + by rewrite Hnew.
    + by rewrite Htmp.
  - rewrite Hsame; [done|]. apply Hne; rewrite !elem_of_cons; tauto.
Qed.

Lemma preserves_pure {A} (m : M A) :
  keeps heap m → preserves (λ w, layer_ok self w in_features) m.
Proof. apply preserves_same_heap. Qed.

Lemma keeps_heap_warn msg : keeps heap (warn msg).
Proof. by intros w. Qed.

Lemma keeps_heap_np_random_beta a b size : keeps heap (np_random_beta a b size).
Proof. intros w. unfold np_random_beta. by case_decide. Qed.

End invariant.

(** X22.  [initialize] keeps the layer well formed, whatever the sample
    is and whether the call completes or raises: the five tensors are still
    distinct allocated objects of the shapes the constructor gave them
    ([feature_thresholds] and [log_temperatures] are written in place,
    which keeps their shapes), each with as many elements as its shape
    says, and the routing codes are those of the constructor. *)
Theorem initialize_keeps_layer_well_formed
    (self : ODST) (in_features : nat) (w : world) (input : loc) (eps : R) :
  layer_ok self w in_features →
  layer_ok self (initialize self input eps w).2 in_features.
Proof.
  revert w.
  change (preserves (λ w, layer_ok self w in_features)
            (initialize self input eps)).
  unfold initialize.
  apply preserves_bind; [apply preserves_pure, keeps_read_only, read_only_read|].
  intros x. case_decide;
    [|apply preserves_pure, keeps_read_only, read_only_raise].
  apply preserves_bind.
  { case_decide; apply preserves_pure;
      [apply keeps_heap_warn | apply keeps_read_only, read_only_ret]. }
  intros _.
  apply preserves_bind; [apply preserves_pure, keeps_read_only, read_only_read|].
  intros logits.
  apply preserves_bind; [apply preserves_pure, keeps_read_only, read_only_lift|].
  intros feature_values.
  apply preserves_bind; [apply preserves_pure, keeps_heap_np_random_beta|].
  intros draws.
  apply preserves_bind; [apply preserves_pure, keeps_read_only, read_only_lift|].
  intros columns.
  apply preserves_bind; [apply preserves_pure, keeps_read_only, read_only_lift|].
  intros percentiles.
  apply (preserves_bind_returns _ wf_tensor);
    [apply preserves_pure, keeps_read_only, read_only_lift
    |apply returns_lift; intros t; apply view_2_wf|].
  intros thresholds Hthr.
  apply preserves_bind; [apply preserves_assign_data; [by left|done]|].
  intros _.
  apply preserves_bind; [apply preserves_pure, keeps_read_only, read_only_read|].
  intros thresholds'.
  apply preserves_bind; [apply preserves_pure, keeps_read_only, read_only_lift|].
  intros deviations.
  apply (preserves_bind_returns _ wf_tensor);
    [apply preserves_pure, keeps_read_only, read_only_lift
    |apply returns_lift; intros t; apply np_percentile_axis0_wf|].
  intros temperatures Htmp.
  apply preserves_assign_data; [by right|].
  by repeat apply tmap_wf.
Qed.

Lemma initialize_keeps_layer_well_formed_example :
  layer_ok (example_layer 1 true)
    (initialize (example_layer 1 true) 0 example_eps (example_world 1 true)).2 1
  ∧ layer_ok (example_layer 1 true)
      (initialize (example_layer 1 true) 1 example_eps (example_world 1 true)).2 1.
Proof.
  split.
  - apply (initialize_keeps_layer_well_formed (example_layer 1 true) 1
             (example_world 1 true) 0 example_eps).
    apply example_layer_ok.
  - apply (initialize_keeps_layer_well_formed (example_layer 1 true) 1
             (example_world 1 true) 1 example_eps).
    apply example_layer_ok.
Defined.

(* ===================================================================== *)
(** ** The trees of a layer *)
(* ===================================================================== *)

(** X23.  The trees of a layer do not interact: the outputs of tree [t] on
    a 2-d input depend on the parameters of that tree only.  When two
    states of the layer hold the same input and agree on the selectors,
    thresholds, log-temperatures and leaf responses of tree [t], the two
    outputs agree on every row and channel of tree [t], whatever the other
    trees hold (not-a-number included). *)
Theorem forward_trees_do_not_interact
    (self : ODST) (w w' : world) (in_features : nat) (input : loc)
    (B t : nat) :
  layer_ok self w in_features → layer_ok self w' in_features →
  selectors_ok self w in_features → selectors_ok self w' in_features →
  shape (heap w !!! input) = [B; in_features] →
  heap w' !!! input = heap w !!! input →
  t < num_trees self →
  (∀ i l, i < in_features → l < depth self →
     get (selectors self w) [i; t; l] = get (selectors self w') [i; t; l]) →
  (∀ l, l < depth self →
     get (heap w !!! feature_thresholds self) [t; l]
     = get (heap w' !!! feature_thresholds self) [t; l]
     ∧ get (heap w !!! log_temperatures self) [t; l]
       = get (heap w' !!! log_temperatures self) [t; l]) →
  (∀ k c, k < tree_dim self → c < 2 ^ depth self →
     get (heap w !!! response self) [t; k; c]
     = get (heap w' !!! response self) [t; k; c]) →
  ∃ out out',
    forward self input w = (Ok out, w)
    ∧ forward self input w' = (Ok out', w')
    ∧ ∀ b k, b < B → k < tree_dim self →
        get out (output_index self b t k) = get out' (output_index self b t k).
Proof.
  intros Hok Hok' Hsel Hsel' Hx Hin Ht Hs Hp Hr.
  assert (Hx' : shape (heap w' !!! input) = [B; in_features]) by (by rewrite Hin).
  destruct (forward_2d_run self w in_features Hok Hsel _ B Hx)
    as (out & fv & Hrun & Hfv & _ & _ & Hget).
  destruct (forward_2d_run self w' in_features Hok' Hsel' _ B Hx')
    as (out' & fv' & Hrun' & Hfv' & _ & _ & Hget').
  destruct (forward_feature_values_run self w in_features _ B Hsel Hx)
    as (fv0 & Hfv0 & _ & _ & Hfvget).
  destruct (forward_feature_values_run self w' in_features _ B Hsel' Hx')
    as (fv0' & Hfv0' & _ & _ & Hfvget').
  rewrite Hfv in Hfv0. injection Hfv0 as <-.
  rewrite Hfv' in Hfv0'. injection Hfv0' as <-.
  assert (Hcodes : heap w !!! bin_codes_1hot self = heap w' !!! bin_codes_1hot self).
  { pose proof (ok_codes _ _ _ Hok) as H1. pose proof (ok_codes _ _ _ Hok') as H2.
    rewrite H1 in H2. by injection H2. }
  exists out, out'.
  split; [rewrite (forward_rank_2 self w input); [done|unfold ndim; by rewrite Hx]|].
  split; [rewrite (forward_rank_2 self w' input); [done|unfold ndim; by rewrite Hx']|].
  intros b k Hb Hk. rewrite Hget, Hget' by done.
  assert (Hsame : ∀ l, l < depth self → get fv [b; t; l] = get fv' [b; t; l]).
  { intros l Hl. rewrite Hfvget, Hfvget' by done.
    unfold feature_value. rewrite Hin, Hx. simpl default.
    f_equal. apply fmap_seq_ext. intros i Hi. by rewrite Hs. }
  unfold output_value. f_equal. apply fmap_seq_ext. intros c Hc.
  rewrite (Hr k c) by done. f_equal.
  unfold leaf_weight. f_equal. apply fmap_seq_ext. intros l Hl.
  unfold bin_match. f_equal. apply fmap_seq_ext. intros s _.
  rewrite Hcodes. f_equal.
  unfold bin_value, threshold_logit.
  destruct (Hp l Hl) as [-> ->]. by rewrite Hsame.
Qed.

Lemma example_moved_heap :
  heap example_world_moved
  = <[4 := Tensor [2; 1] [Fin 0; Fin 5]]> (heap example_world_loaded).
Proof.
  destruct example_loaded_heap as (codes & Hcodes & Hheap).
  unfold example_world_moved, assign_data. rewrite Hheap.
  cbn [feature_thresholds example_layer]. done.
Qed.

Lemma example_moved_other l :
  l ≠ 4 → heap example_world_moved !!! l = heap example_world_loaded !!! l.
Proof.
  intros Hl. rewrite example_moved_heap.
  by apply list_lookup_total_insert_ne.
Qed.

Lemma example_moved_thresholds :
  heap example_world_moved !!! 4 = Tensor [2; 1] [Fin 0; Fin 5].
Proof.
  rewrite example_moved_heap.
  destruct example_loaded_heap as (codes & _ & ->). done.
Qed.

Lemma example_moved_ok : layer_ok (example_layer 1 true) example_world_moved 1.
Proof.
  apply (preserves_assign_data (example_layer 1 true) 1
           (feature_thresholds (example_layer 1 true))
           (Tensor [2; 1] [Fin 0; Fin 5])).
  - by left.
  - done.
  - apply example_loaded_ok.
Qed.

Lemma example_moved_selectors :
  selectors (example_layer 1 true) example_world_moved
  = selectors (example_layer 1 true) example_world_loaded.
Proof.
  unfold selectors. cbn [feature_selection_logits example_layer].
  by rewrite example_moved_other by lia.
Qed.

Lemma forward_trees_do_not_interact_example :
  get (heap example_world_loaded !!! feature_thresholds (example_layer 1 true)) [1; 0]
  ≠ get (heap example_world_moved !!! feature_thresholds (example_layer 1 true)) [1; 0]
  ∧ ∃ out out',
      forward (example_layer 1 true) 0 example_world_loaded
      = (Ok out, example_world_loaded)
      ∧ forward (example_layer 1 true) 0 example_world_moved
        = (Ok out', example_world_moved)
      ∧ ∀ b k, b < 2 → k < 3 →
          get out (output_index (example_layer 1 true) b 0 k)
          = get out' (output_index (example_layer 1 true) b 0 k).
Proof.
  assert (Hthr : heap example_world_loaded !!! 4 = Tensor [2; 1] [Fin 0; Fin 0]).
  { destruct example_loaded_heap as (codes & _ & ->). done. }
  split.
  - cbn [feature_thresholds example_layer].
    rewrite Hthr, example_moved_thresholds. vm_compute. intros [= H]. lra.
  - apply (forward_trees_do_not_interact (example_layer 1 true)
             example_world_loaded example_world_moved 1 0 2 0).
    + apply example_loaded_ok.
    + apply example_moved_ok.
    + apply example_loaded_selectors_ok.
    + unfold selectors_ok. rewrite example_moved_selectors.
      apply example_loaded_selectors_ok.
    + by rewrite example_loaded_input.
    + by rewrite example_moved_other by lia.
    + simpl. lia.
    + intros i l _ _. by rewrite example_moved_selectors.
    + intros l Hl. cbn [depth example_layer] in Hl.
      replace l with 0 by lia.
      cbn [feature_thresholds log_temperatures example_layer].
      rewrite Hthr, example_moved_thresholds.
      split; [done|]. by rewrite example_moved_other by lia.
    + intros k c _ _. cbn [response example_layer].
      by rewrite example_moved_other by lia.
Defined.

(* ===================================================================== *)
(** ** What [flatten_output] changes *)
(* ===================================================================== *)

Lemma with_flatten_output_ok fl self w in_features :
  layer_ok self w in_features →
  layer_ok (with_flatten_output fl self) w in_features.
Proof. intros [H1 H2 H3 H4 H5 H6 H7 H8 H9 H10 H11]. by split. Qed.

Lemma with_flatten_output_selectors_ok fl self w in_features :
  selectors_ok self w in_features →
  selectors_ok (with_flatten_output fl self) w in_features.
Proof. done. Qed.

(** X24.  [flatten_output] changes the shape of the output of [forward]
    and nothing else: on a 2-d input of [B] rows, the layer built with the
    flag set returns shape [B × num_trees * tree_dim], the layer built
    without it returns [B × num_trees × tree_dim], and the element at
    [b, t * tree_dim + k] of the first is the element at [b, t, k] of the
    second.  (The layer itself is one of the two.) *)
Theorem flatten_output_only_reshapes
    (self : ODST) (w : world) (in_features : nat) (input : loc) (B : nat) :
  layer_ok self w in_features →
  selectors_ok self w in_features →
  shape (heap w !!! input) = [B; in_features] →
  with_flatten_output (flatten_output self) self = self
  ∧ ∃ flat grid,
      forward (with_flatten_output true self) input w = (Ok flat, w)
      ∧ forward (with_flatten_output false self) input w = (Ok grid, w)
      ∧ shape flat = [B; num_trees self * tree_dim self]
      ∧ shape grid = [B; num_trees self; tree_dim self]
      ∧ ∀ b t k, b < B → t < num_trees self → k < tree_dim self →
          get flat [b; t * tree_dim self + k] = get grid [b; t; k].
Proof.
  intros Hok Hsel Hx. split; [by destruct self|].
  destruct (forward_2d_run (with_flatten_output true self) w in_features
              (with_flatten_output_ok true _ _ _ Hok)
              (with_flatten_output_selectors_ok true _ _ _ Hsel) _ B Hx)
    as (flat & fv & Hrun & Hfv & Hshape & _ & Hget).
  destruct (forward_2d_run (with_flatten_output false self) w in_features
              (with_flatten_output_ok false _ _ _ Hok)
              (with_flatten_output_selectors_ok false _ _ _ Hsel) _ B Hx)
    as (grid & fv' & Hrun' & Hfv' & Hshape' & _ & Hget').
  change (forward_feature_values (with_flatten_output false self))
    with (forward_feature_values (with_flatten_output true self)) in Hfv'.
  rewrite Hfv in Hfv'. injection Hfv' as <-.
  exists flat, grid.
  split; [rewrite forward_rank_2; [done|unfold ndim; by rewrite Hx]|].
  split; [rewrite forward_rank_2; [done|unfold ndim; by rewrite Hx]|].
  split; [done|]. split; [done|].
  intros b t k Hb Ht Hk.
  specialize (Hget b t k Hb Ht Hk). specialize (Hget' b t k Hb Ht Hk).
  unfold output_index in Hget, Hget'. cbn [flatten_output with_flatten_output] in *.
  cbn [tree_dim with_flatten_output] in Hget.
  by rewrite Hget, Hget'.
Qed.

Lemma flatten_output_only_reshapes_example :
  ∃ flat grid,
    forward (with_flatten_output true (example_layer 1 true)) 0 (example_world 1 true)
    = (Ok flat, example_world 1 true)
    ∧ forward (with_flatten_output false (example_layer 1 true)) 0 (example_world 1 true)
      = (Ok grid, example_world 1 true)
    ∧ shape flat = [2; 6] ∧ shape grid = [2; 2; 3]
    ∧ get flat [1; 5] = get grid [1; 1; 2].
Proof.
  destruct (flatten_output_only_reshapes (example_layer 1 true)
              (example_world 1 true) 1 0 2
              (example_layer_ok 1 true) (example_selectors_ok 1 true))
    as (_ & flat & grid & Hflat & Hgrid & Hs & Hs' & Hget).
  - by rewrite example_input.
  - exists flat, grid. split; [done|]. split; [done|].
    split; [done|]. split; [done|].
    apply (Hget 1 1 2); simpl; lia.
Defined.
